(** * christmas_year_count.py: year extraction, section tracking,
      filtering and counting of the scraped list entries.

    The script is one linear pipeline.  Its pure parts (the three regular
    expressions, [extract_year], the heading-scoped loop, the two filters,
    the group-by) are embedded as functions; [main] is embedded in a small
    monad that records the observable events of a run (files written,
    the HTTP request, console lines) and carries Python exceptions. *)

From Stdlib Require Import List Bool Arith ZArith NArith Lia String Ascii.
From Stdlib Require Import Permutation Sorted.
Import ListNotations.

Set Implicit Arguments.

(** ** Text

    A Python [str] is a sequence of code points. *)

Definition char := N.
Definition str := list char.

Definition ch (a : ascii) : char := N_of_ascii a.
Definition lit (s : string) : str := map N_of_ascii (list_ascii_of_string s).

(** The two parentheses. *)
Abbreviation lp := (ch "("%char).
Abbreviation rp := (ch ")"%char).

(** The part of the Unicode character database that [re] and [int] consult
    for code points beyond ASCII.  It ships with the interpreter, not with
    the script, so it is a parameter of the model; inside ASCII the classes
    are written out below. *)
Record unicode_db := {
  uni_alnum : char -> bool;          (* alphabetic, digit or numeric *)
  uni_decimal : char -> option Z;    (* decimal digit value, if any *)
  uni_lower : char -> char           (* simple lower-case mapping *)
}.

(** Python exceptions that the modelled code can raise. *)
Inductive exn :=
| ValueError
| ConnectionError
| HTTPError
| RuntimeError
| IndexError.

Inductive result (A : Type) :=
| Ok (a : A)
| Raise (e : exn).
Arguments Ok {A} a.
Arguments Raise {A} e.

Section Model.

Variable U : unicode_db.

Definition is_ascii (c : char) : bool := (c <? 128)%N.

Definition ascii_digit (c : char) : bool := ((48 <=? c) && (c <=? 57))%N.
Definition ascii_upper (c : char) : bool := ((65 <=? c) && (c <=? 90))%N.
Definition ascii_lower (c : char) : bool := ((97 <=? c) && (c <=? 122))%N.

(** [\d] *)
Definition is_digit (c : char) : bool :=
  if is_ascii c then ascii_digit c
  else match uni_decimal U c with Some _ => true | None => false end.

(** [\w]: alphanumeric or underscore. *)
Definition is_word (c : char) : bool :=
  if is_ascii c
  then ascii_digit c || ascii_upper c || ascii_lower c || (c =? 95)%N
  else uni_alnum U c
       || match uni_decimal U c with Some _ => true | None => false end.

Definition py_lower (c : char) : char :=
  if is_ascii c then (if ascii_upper c then c + 32 else c)%N
  else uni_lower U c.

(** Code points that [re] equates with a lower-case ASCII letter under
    [re.I] although they do not lower-case to it: dotless i, long s. *)
Definition sre_fixes (lo : char) : list char :=
  if (lo =? 105)%N then [305%N]
  else if (lo =? 115)%N then [383%N]
  else [].

(** ** The fragment of [re] the script uses *)

Inductive cclass :=
| CLit (c : char)      (* a literal character *)
| CLitI (lo : char)    (* a cased literal compiled under re.I *)
| CDigit               (* \d *)
| CNot (c : char).     (* [^c] *)

Inductive regex :=
| Eps
| Chr (cc : cclass)
| StarC (cc : cclass)                 (* greedy cc* *)
| Seq (r1 r2 : regex)
| Alt (r1 r2 : regex)
| WordB                               (* \b *)
| Group (n : nat) (r : regex).

Definition cc_match (cc : cclass) (x : char) : bool :=
  match cc with
  | CLit c => (x =? c)%N
  | CLitI lo =>
      let l := py_lower x in
      (l =? lo)%N || existsb (N.eqb l) (sre_fixes lo)
  | CDigit => is_digit x
  | CNot c => negb (x =? c)%N
  end.

(** Captured groups: group number to (start, end) offsets, newest first. *)
Definition groups := list (nat * (nat * nat)).

Definition word_before (p : str) : bool :=
  match p with c :: _ => is_word c | [] => false end.
Definition word_after (s : str) : bool :=
  match s with c :: _ => is_word c | [] => false end.

(** The matcher's continuation receives the text consumed so far
    (reversed), the text still ahead, and the groups. *)
Definition cont := str -> str -> groups -> option groups.

(** Greedy repetition of a character class: take as many as possible,
    then give characters back one at a time until the rest matches. *)
Fixpoint star_greedy (cc : cclass) (k : cont) (p s : str) (g : groups)
  : option groups :=
  match s with
  | c :: s' =>
      if cc_match cc c
      then match star_greedy cc k (c :: p) s' g with
           | Some g' => Some g'
           | None => k p s g
           end
      else k p s g
  | [] => k p s g
  end.

(** Backtracking matcher: [p] is the text before the current position,
    reversed; [s] is the text from the current position on. *)
Fixpoint rmatch (r : regex) (k : cont) (p s : str) (g : groups)
  : option groups :=
  match r with
  | Eps => k p s g
  | Chr cc =>
      match s with
      | c :: s' => if cc_match cc c then k (c :: p) s' g else None
      | [] => None
      end
  | StarC cc => star_greedy cc k p s g
  | Seq r1 r2 => rmatch r1 (fun p' s' g' => rmatch r2 k p' s' g') p s g
  | Alt r1 r2 =>
      match rmatch r1 k p s g with
      | Some g' => Some g'
      | None => rmatch r2 k p s g
      end
  | WordB => if xorb (word_before p) (word_after s) then k p s g else None
  | Group n r =>
      rmatch r (fun p' s' g' =>
                  k p' s' ((n, (List.length p, List.length p')) :: g')) p s g
  end.

(** [pattern.search]: the leftmost start position at which the pattern
    matches; group 0 is the whole match. *)
Fixpoint search_from (r : regex) (p s : str) : option groups :=
  match rmatch r (fun p' _ g =>
                    Some ((0, (List.length p, List.length p')) :: g)) p s [] with
  | Some g => Some g
  | None =>
      match s with
      | c :: s' => search_from r (c :: p) s'
      | [] => None
      end
  end.

Definition re_search (r : regex) (text : str) : option groups :=
  search_from r [] text.

Definition substr (text : str) (span : nat * nat) : str :=
  firstn (snd span - fst span) (skipn (fst span) text).

(** [m.group(n)] for a group that took part in the match. *)
Definition re_group (text : str) (g : groups) (n : nat) : str :=
  match find (fun e => Nat.eqb (fst e) n) g with
  | Some e => substr text (snd e)
  | None => []
  end.

(** A literal string as a pattern, and the same compiled under [re.I]:
    cased characters are matched through their lower case. *)
Definition iscased (c : char) : bool := ascii_upper c || ascii_lower c.

Definition literal_i (c : char) : cclass :=
  if iscased c then CLitI (if ascii_upper c then c + 32 else c)%N else CLit c.

Fixpoint seq_of (l : list cclass) : regex :=
  match l with
  | [] => Eps
  | cc :: l' => Seq (Chr cc) (seq_of l')
  end.

Definition lits (s : string) : regex := seq_of (map CLit (lit s)).
Definition lits_i (s : string) : regex := seq_of (map literal_i (lit s)).

(** The alternation "19\d{2}|20\d{2}" shared by both year patterns. *)
Definition year_alt : regex :=
  Alt (Seq (lits "19") (Seq (Chr CDigit) (Chr CDigit)))
      (Seq (lits "20") (Seq (Chr CDigit) (Chr CDigit))).

(** YEAR_RE, the pattern "\b(19\d{2}|20\d{2})\b" *)
Definition YEAR_RE : regex :=
  Seq WordB (Seq (Group 1 year_alt) WordB).

(** DATE_PARENS_RE: a left parenthesis; group 1; a right parenthesis.
    Group 1 is a greedy run of characters other than the right
    parenthesis, a word boundary, group 2 (the year alternation), a word
    boundary and another such run. *)
Definition date_inner : regex :=
  Seq (StarC (CNot rp))
      (Seq WordB
           (Seq (Group 2 year_alt)
                (Seq WordB (StarC (CNot rp))))).

Definition DATE_PARENS_RE : regex :=
  Seq (Chr (CLit lp)) (Seq (Group 1 date_inner) (Chr (CLit rp))).

(** ANIM_HEADING_RE, the pattern "\b(animation|animated)\b" under re.I *)
Definition ANIM_HEADING_RE : regex :=
  Seq WordB
      (Seq (Group 1 (Alt (lits_i "animation") (lits_i "animated"))) WordB).

(** ** [int] on the strings the year patterns capture

    Plain runs of decimal digits; anything else is reported as
    [ValueError]. *)
Definition digit_value (c : char) : option Z :=
  if is_ascii c
  then (if ascii_digit c then Some (Z.of_N c - 48)%Z else None)
  else uni_decimal U c.

Fixpoint int_digits (acc : Z) (s : str) : option Z :=
  match s with
  | [] => Some acc
  | c :: s' =>
      match digit_value c with
      | Some d => int_digits (10 * acc + d)%Z s'
      | None => None
      end
  end.

Definition py_int (s : str) : result Z :=
  match s with
  | [] => Raise ValueError
  | _ => match int_digits 0 s with
         | Some n => Ok n
         | None => Raise ValueError
         end
  end.

(** ** [extract_year] *)
Definition extract_year (text : str) : result (option Z) :=
  let fallback :=
    match re_search YEAR_RE text with
    | Some y =>
        match py_int (re_group text y 1) with
        | Ok n => Ok (Some n)
        | Raise e => Raise e
        end
    | None => Ok None
    end in
  match re_search DATE_PARENS_RE text with
  | Some m =>
      let inner := re_group text m 1 in
      match re_search YEAR_RE inner with
      | Some y =>
          match py_int (re_group inner y 1) with
          | Ok n => Ok (Some n)
          | Raise e => Raise e
          end
      | None => fallback
      end
  | None => fallback
  end.



(** ** The heading-scoped loop of [main] *)

(** [find_all] is asked for four tag names only. *)
Inductive tag := h2 | h3 | h4 | li.

(** A visited node: its tag name and its flattened text,
    [node.get_text(" ", strip=True)]. *)
Record node := { name : tag; get_text : str }.

(** One element of [rows]. *)
Record row := {
  year : Z;
  in_animation_section : bool;
  entry : str
}.

(** The loop's local variables. *)
Record scan_state := {
  rows : list row;
  in_animation : bool;
  total_li : nat;
  li_with_year : nat
}.

Definition scan_init : scan_state :=
  {| rows := []; in_animation := false; total_li := 0; li_with_year := 0 |}.

Definition anim_heading (heading : str) : bool :=
  match re_search ANIM_HEADING_RE heading with
  | Some _ => true
  | None => false
  end.

(** One iteration of the [for node in ...] body. *)
Definition scan_step (st : scan_state) (nd : node) : result scan_state :=
  match name nd with
  | li =>
      let text := get_text nd in
      match extract_year text with
      | Raise e => Raise e
      | Ok None =>
          Ok {| rows := rows st;
                in_animation := in_animation st;
                total_li := S (total_li st);
                li_with_year := li_with_year st |}
      | Ok (Some y) =>
          Ok {| rows := rows st ++
                        [{| year := y;
                            in_animation_section := in_animation st;
                            entry := text |}];
                in_animation := in_animation st;
                total_li := S (total_li st);
                li_with_year := S (li_with_year st) |}
      end
  | _ =>
      Ok {| rows := rows st;
            in_animation := anim_heading (get_text nd);
            total_li := total_li st;
            li_with_year := li_with_year st |}
  end.

Fixpoint scan (st : scan_state) (nodes : list node) : result scan_state :=
  match nodes with
  | [] => Ok st
  | nd :: rest =>
      match scan_step st nd with
      | Ok st' => scan st' rest
      | Raise e => Raise e
      end
  end.

(** ** Filters *)

Definition specials_keywords : list string :=
  ["christmas special"; "holiday special"; "special presentation";
   "tv special"; "television special"]%string.

(** ["|".join(re.escape(k) for k in specials_keywords)] under [re.I]. *)
Fixpoint alt_of (l : list regex) : regex :=
  match l with
  | [] => Eps
  | [r] => r
  | r :: l' => Alt r (alt_of l')
  end.

Definition specials_pat : regex := alt_of (map lits_i specials_keywords).

(** [Series.str.contains(pat)] on one cell. *)
Definition str_contains (pat : regex) (s : str) : bool :=
  match re_search pat s with
  | Some _ => true
  | None => false
  end.

Definition drop_animation (df : list row) : list row :=
  filter (fun r => Bool.eqb (in_animation_section r) false) df.

Definition drop_specials (df : list row) : list row :=
  filter (fun r => negb (str_contains specials_pat (entry r))) df.

Definition apply_filters (df : list row) : list row :=
  drop_specials (drop_animation df).

(** ** Counting by year *)

(** [groupby("year").size()]: one line per distinct year, years ascending. *)
Fixpoint bump (y : Z) (t : list (Z * nat)) : list (Z * nat) :=
  match t with
  | [] => [(y, 1)]
  | (k, c) :: t' =>
      if (y <? k)%Z then (y, 1) :: t
      else if (y =? k)%Z then (k, S c) :: t'
      else (k, c) :: bump y t'
  end.

Definition groupby_size (df : list row) : list (Z * nat) :=
  fold_left (fun t r => bump (year r) t) df [].

(** [Series.sort_index()]: by year, ascending. *)
Fixpoint insert_by_year (e : Z * nat) (t : list (Z * nat)) : list (Z * nat) :=
  match t with
  | [] => [e]
  | e' :: t' =>
      if (fst e <=? fst e')%Z then e :: t else e' :: insert_by_year e t'
  end.

Definition sort_index (t : list (Z * nat)) : list (Z * nat) :=
  fold_right insert_by_year [] t.

(** [Series.sort_values(ascending=False)] hands the counts to NumPy's
    default sort, whose treatment of equal counts is not part of its
    contract; the sort is a parameter of the model. *)
Variable sort_values_desc : list (Z * nat) -> list (Z * nat).

Definition year_counts (df_filt : list row) : list (Z * nat) :=
  sort_values_desc (groupby_size df_filt).

(** ** A run of [main] *)

Record response := { status_code : Z; text : str }.

(** What a run depends on from outside the script. *)
Record env := {
  root : string;                       (* repo_root() *)
  cwd : string;                        (* Path.cwd() *)
  script_path : string;                (* Path(__file__).resolve() *)
  requests_get :
    string -> list (string * string) -> Z -> result response;
  (* BeautifulSoup(markup, "lxml"), select_one of the content wrapper,
     and the nodes its find_all visits, in document order *)
  parse_wrapper : str -> option (list node)
}.

Inductive table :=
| Entries (df : list row)
| Counts (c : list (Z * nat)).

Inductive line :=
| OkProofFile (p : string)
| InfoDownloading (url : string)
| OkDownloaded (n : nat)
| InfoTotalLi (n : nat)
| InfoLiWithYear (n : nat)
| InfoRowsCaptured (n : nat)
| WarnNoRows
| InfoRowsAfter (n : nat)
| ResultTop10Header
| ResultTop10 (c : list (Z * nat))
| ResultTopYear (y : Z) (c : nat)
| OkWrote (p : string)
| OkWroteChart (p : string).

(** What a run does to the outside, in order.  The file system is taken
    to accept every mkdir and write; the fetch and the parse may fail. *)
Inductive event :=
| Mkdir (p : string)
| WriteText (p : string) (content : string)
| Print (l : line)
| HttpGet (url : string) (headers : list (string * string)) (timeout : Z)
| ToCsv (p : string) (t : table)
| SaveFig (p : string) (bars : list (Z * nat)) (dpi : Z).

(** Events so far, and either a value or the exception that ended the run. *)
Definition M (A : Type) : Type := list event * result A.

Definition ret {A} (a : A) : M A := ([], Ok a).
Definition raise {A} (e : exn) : M A := ([], Raise e).
Definition emit (ev : event) : M unit := ([ev], Ok tt).
Definition lift {A} (r : result A) : M A := ([], r).

Definition bind {A B} (m : M A) (f : A -> M B) : M B :=
  match m with
  | (t, Ok a) => let (t', b) := f a in (t ++ t', b)
  | (t, Raise e) => (t, Raise e)
  end.

Notation "x <- m ;; k" := (bind m (fun x => k))
  (at level 61, m at next level, right associativity).
Notation "m ;;; k" := (bind m (fun _ => k))
  (at level 61, right associativity).

Definition URL : string :=
  "https://en.wikipedia.org/wiki/List_of_United_States_Christmas_television_episodes".

Definition slash (dir leaf : string) : string := (dir ++ "/" ++ leaf)%string.

Definition nl : string := String (ascii_of_nat 10) EmptyString.

(** [Response.raise_for_status] of the requests library: [HTTPError] for
    a client error (4xx) or server error (5xx) status, nothing otherwise. *)
Definition raise_for_status (r : response) : result unit :=
  if ((400 <=? status_code r) && (status_code r <? 600))%Z
  then Raise HTTPError
  else Ok tt.

Definition main (e : env) : M unit :=
  let data_dir := slash (root e) "data" in
  let out_dir := slash (root e) "outputs" in
  emit (Mkdir data_dir) ;;;
  emit (Mkdir out_dir) ;;;
  let proof := slash out_dir "it_ran.txt" in
  emit (WriteText proof
          ("Script executed from: " ++ cwd e ++ nl ++
           "Script path: " ++ script_path e ++ nl)%string) ;;;
  emit (Print (OkProofFile proof)) ;;;
  emit (Print (InfoDownloading URL)) ;;;
  let headers := [("User-Agent", "RewindOS-Christmas/1.0 (personal project)")]%string in
  emit (HttpGet URL headers 30) ;;;
  r <- lift (requests_get e URL headers 30) ;;
  lift (raise_for_status r) ;;;
  emit (Print (OkDownloaded (List.length (text r)))) ;;;
  nodes <- match parse_wrapper e (text r) with
           | Some nodes => ret nodes
           | None => raise RuntimeError
           end ;;
  st <- lift (scan scan_init nodes) ;;
  emit (Print (InfoTotalLi (total_li st))) ;;;
  emit (Print (InfoLiWithYear (li_with_year st))) ;;;
  emit (Print (InfoRowsCaptured (List.length (rows st)))) ;;;
  let df := rows st in
  match df with
  | [] => emit (Print WarnNoRows)
  | _ :: _ =>
      let df_filt := apply_filters df in
      emit (Print (InfoRowsAfter (List.length df_filt))) ;;;
      let counts := year_counts df_filt in
      top <- match counts with
             | (y, c) :: _ => ret (y, c)
             | [] => raise IndexError
             end ;;
      emit (Print ResultTop10Header) ;;;
      emit (Print (ResultTop10 (firstn 10 counts))) ;;;
      emit (Print (ResultTopYear (fst top) (snd top))) ;;;
      let out_all := slash data_dir "wiki_christmas_entries_all.csv" in
      let out_filtered := slash data_dir "wiki_christmas_entries_filtered.csv" in
      let out_counts := slash data_dir "wiki_christmas_counts_by_year.csv" in
      let out_png := slash out_dir "wiki_christmas_counts_by_year.png" in
      emit (ToCsv out_all (Entries df)) ;;;
      emit (ToCsv out_filtered (Entries df_filt)) ;;;
      emit (ToCsv out_counts (Counts counts)) ;;;
      emit (Print (OkWrote out_all)) ;;;
      emit (Print (OkWrote out_filtered)) ;;;
      emit (Print (OkWrote out_counts)) ;;;
      emit (SaveFig out_png (sort_index counts) 200) ;;;
      emit (Print (OkWroteChart out_png))
  end.

End Model.

(** ** What it means for a pattern to match

    [matches r p s p' s']: started with [p] behind (reversed) and [s]
    ahead, the pattern can stop with [p'] behind and [s'] ahead. *)
Inductive matches (U : unicode_db) : regex -> str -> str -> str -> str -> Prop :=
| MEps p s : matches U Eps p s p s
| MChr cc c p s :
    cc_match U cc c = true -> matches U (Chr cc) p (c :: s) (c :: p) s
| MStarStop cc p s : matches U (StarC cc) p s p s
| MStarStep cc c p s p' s' :
    cc_match U cc c = true ->
    matches U (StarC cc) (c :: p) s p' s' ->
    matches U (StarC cc) p (c :: s) p' s'
| MSeq r1 r2 p s p1 s1 p2 s2 :
    matches U r1 p s p1 s1 -> matches U r2 p1 s1 p2 s2 ->
    matches U (Seq r1 r2) p s p2 s2
| MAltL r1 r2 p s p' s' :
    matches U r1 p s p' s' -> matches U (Alt r1 r2) p s p' s'
| MAltR r1 r2 p s p' s' :
    matches U r2 p s p' s' -> matches U (Alt r1 r2) p s p' s'
| MWordB p s :
    xorb (word_before U p) (word_after U s) = true -> matches U WordB p s p s
| MGroup n r p s p' s' :
    matches U r p s p' s' -> matches U (Group n r) p s p' s'.

(** ** The specification's vocabulary *)

Section Spec.

Variable U : unicode_db.

(** Four characters of shape 19xx or 20xx. *)
Definition year_shape (tok : str) : bool :=
  match tok with
  | [a; b; c; d] =>
      (((a =? 49) && (b =? 57)) || ((a =? 50) && (b =? 48)))%N
      && is_digit U c && is_digit U d
  | _ => false
  end.

Definition word_at_end (l : str) : bool :=
  match rev l with c :: _ => is_word U c | [] => false end.

Definition word_at_start (r : str) : bool :=
  match r with c :: _ => is_word U c | [] => false end.

(** In the text [l ++ tok ++ r], [tok] is a year token: it has the year
    shape and is not glued to a word character on either side. *)
Definition year_token (l tok r : str) : Prop :=
  year_shape tok = true /\ word_at_end l = false /\ word_at_start r = false.

(** The text holds a year token somewhere. *)
Definition has_year_token (s : str) : Prop :=
  exists l tok r, s = l ++ tok ++ r /\ year_token l tok r.

(** [tok], between [l] and [r], is the leftmost year token of the text. *)
Definition first_year_token (l tok r : str) : Prop :=
  year_token l tok r /\
  forall l' tok' r',
    l ++ tok ++ r = l' ++ tok' ++ r' -> year_token l' tok' r' ->
    List.length l <= List.length l'.

(** The number a year token denotes. *)
Definition digit_of (c : char) : Z :=
  match digit_value U c with Some d => d | None => 0 end.

Definition year_of_token (tok : str) : Z :=
  match tok with
  | [a; b; c; d] =>
      (1000 * digit_of a + 100 * digit_of b + 10 * digit_of c + digit_of d)%Z
  | _ => 0%Z
  end.

(** A parenthetical: the text between a left parenthesis and the next
    right parenthesis.  [paren_at text pre body post] places one in
    the text. *)
Definition paren_at (text pre body post : str) : Prop :=
  text = pre ++ lp :: body ++ rp :: post /\ ~ In rp body.

(** Executable search for the leftmost year token, used to decide the
    predicates above on concrete texts. *)
Definition token_here (p s : str) : bool :=
  match s with
  | a :: b :: c :: d :: s' =>
      year_shape [a; b; c; d]
      && negb (word_before U p) && negb (word_after U s')
  | _ => false
  end.

Fixpoint first_token_from (p s : str) : option (str * str * str) :=
  if token_here p s
  then Some (rev p, firstn 4 s, skipn 4 s)
  else match s with
       | [] => None
       | c :: s' => first_token_from (c :: p) s'
       end.

Definition first_token (text : str) : option (str * str * str) :=
  first_token_from [] text.

(** The number of the leftmost year token, if the text has one. *)
Definition year_in (text : str) : option Z :=
  match first_token text with
  | Some (_, tok, _) => Some (year_of_token tok)
  | None => None
  end.

(** Executable check that no parenthetical opening among the first [n]
    characters holds a year token. *)
Fixpoint upto_rparen (s : str) : option (str * str) :=
  match s with
  | [] => None
  | c :: s' =>
      if (c =? rp)%N then Some ([], s')
      else match upto_rparen s' with
           | Some (seg, rest) => Some (c :: seg, rest)
           | None => None
           end
  end.

Fixpoint no_dated_paren_before (n : nat) (s : str) : bool :=
  match n, s with
  | S n', c :: s' =>
      (if (c =? lp)%N
       then match upto_rparen s' with
            | Some (seg, _) =>
                match first_token seg with Some _ => false | None => true end
            | None => true
            end
       else true)
      && no_dated_paren_before n' s'
  | _, _ => true
  end.

Definition is_heading (nd : node) : bool :=
  match name nd with li => false | _ => true end.

(** The most recently visited heading among the nodes [pre] already
    visited. *)
Definition last_heading (pre : list node) : option node :=
  find is_heading (rev pre).

(** The row a list item with text [t] contributes under flag [b]. *)
Definition item_rows (b : bool) (t : str) : list row :=
  match extract_year U t with
  | Ok (Some y) => [{| year := y; in_animation_section := b; entry := t |}]
  | _ => []
  end.

(** The small letter a keyword character stands for, if it is a letter:
    itself for a to z, the small letter for a capital A to Z. *)
Definition keyword_letter (kc : char) : option char :=
  if ((97 <=? kc) && (kc <=? 122))%N then Some kc
  else if ((65 <=? kc) && (kc <=? 90))%N then Some (kc + 32)%N
  else None.

(** A text character equals a keyword character, ignoring case.  A
    keyword letter is matched by the small letter and by its capital;
    beyond ASCII, by a character whose lower case is the letter, and
    also by the dotless i (305) for i and by the long s (383) for s,
    the two small letters whose capitals are I and S.  A keyword
    character that is no letter is matched by itself only. *)
Definition ci_char (kc c : char) : bool :=
  match keyword_letter kc with
  | Some k =>
      if (c <? 128)%N
      then ((c =? k) || (c + 32 =? k))%N
      else let l := uni_lower U c in
           ((l =? k) || ((k =? 105) && (l =? 305))
                     || ((k =? 115) && (l =? 383)))%N
  | None => (c =? kc)%N
  end.

(** [w] spells the keyword, ignoring case. *)
Definition ci_word (kw : string) (w : str) : Prop :=
  Forall2 (fun kc c => ci_char kc c = true) (lit kw) w.

(** The text contains the keyword as a substring, ignoring case. *)
Definition ci_contains (kw : string) (s : str) : Prop :=
  exists l mid r, s = l ++ mid ++ r /\ ci_word kw mid.

(** A word boundary lies between [l] and [r]. *)
Definition boundary (l r : str) : bool :=
  xorb (word_at_end l) (word_at_start r).

(** The heading has "animation" or "animated" as a whole word, ignoring
    case. *)
Definition anim_titled (h : str) : Prop :=
  exists l w r,
    h = l ++ w ++ r /\
    (ci_word "animation" w \/ ci_word "animated" w) /\
    boundary l (w ++ r) = true /\ boundary (l ++ w) r = true.

End Spec.

(** The number of entries of [df] with year [y]. *)
Definition count_year (y : Z) (df : list row) : nat :=
  List.length (filter (fun r => (year r =? y)%Z) df).

(** Descending by count: a line never precedes one with a larger count. *)
Definition by_count_desc (a b : Z * nat) : Prop := snd b <= snd a.

Definition key_lt (a b : Z * nat) : Prop := (fst a < fst b)%Z.

(** The count a table holds for year [y] (0 if it has no line for it). *)
Definition line_count (t : list (Z * nat)) (y : Z) : nat :=
  list_sum (map snd (filter (fun e => (fst e =? y)%Z) t)).

(** Two sorts that meet the contract of [sort_values(ascending=False)]
    and differ on ties: among equal counts, one keeps the incoming order,
    the other reverses it. *)
Fixpoint insert_desc (e : Z * nat) (t : list (Z * nat)) : list (Z * nat) :=
  match t with
  | [] => [e]
  | e' :: t' =>
      if snd e' <=? snd e then e :: t else e' :: insert_desc e t'
  end.

Definition sort_desc_stable (t : list (Z * nat)) : list (Z * nat) :=
  fold_right insert_desc [] t.

Definition sort_desc_reversing (t : list (Z * nat)) : list (Z * nat) :=
  fold_right insert_desc [] (rev t).


(** The continuation [search] runs a pattern with. *)
Definition kfin (q : str) : cont :=
  fun p' _ g => Some ((0, (List.length q, List.length p')) :: g).


Definition user_agent : list (string * string) :=
  [("User-Agent", "RewindOS-Christmas/1.0 (personal project)")]%string.

Definition proof_file (e : env) : string :=
  slash (slash (root e) "outputs") "it_ran.txt".

Definition proof_text (e : env) : string :=
  ("Script executed from: " ++ cwd e ++ nl ++
   "Script path: " ++ script_path e ++ nl)%string.

(** What every run does before it touches the network. *)
Definition startup (e : env) : list event :=
  [ Mkdir (slash (root e) "data");
    Mkdir (slash (root e) "outputs");
    WriteText (proof_file e) (proof_text e);
    Print (OkProofFile (proof_file e));
    Print (InfoDownloading URL) ].

Definition is_http (ev : event) : bool :=
  match ev with HttpGet _ _ _ => true | _ => false end.

(** The files a run wrote, in order. *)
Definition files_written (t : list event) : list string :=
  flat_map (fun ev => match ev with
                      | WriteText p _ => [p]
                      | ToCsv p _ => [p]
                      | SaveFig p _ _ => [p]
                      | _ => []
                      end) t.


(** A database with nothing beyond ASCII, for running the model. *)
Definition ascii_db : unicode_db :=
  {| uni_alnum := fun _ => false;
     uni_decimal := fun _ => None;
     uni_lower := fun c => c |}.

(** Sample inputs for running the model: an environment whose fetch
    answers with the given status and whose page yields the given nodes. *)
Definition sample_env (status : Z) (nodes : option (list node)) : env :=
  {| root := "/repo";
     cwd := "/home/user";
     script_path := "/repo/src/christmas_year_count.py";
     requests_get := fun _ _ _ =>
       Ok {| status_code := status; text := lit "<html></html>" |};
     parse_wrapper := fun _ => nodes |}.

(** A fetch answered with 304 Not Modified: no body, hence no wrapper. *)
Definition not_modified_env : env :=
  {| root := "/repo";
     cwd := "/home/user";
     script_path := "/repo/src/christmas_year_count.py";
     requests_get := fun _ _ _ => Ok {| status_code := 304; text := [] |};
     parse_wrapper := fun _ => None |}.

Definition sample_page : list node :=
  [ {| name := h2; get_text := lit "Animated specials" |};
    {| name := li; get_text := lit "A Christmas Carol (1971)" |};
    {| name := h3; get_text := lit "Live-action" |};
    {| name := li; get_text := lit "Holiday Special (2005)" |} ].

Definition sample_rows : list row :=
  [ {| year := 2006; in_animation_section := false; entry := lit "a (2006)" |};
    {| year := 1999; in_animation_section := false; entry := lit "b (1999)" |};
    {| year := 2006; in_animation_section := false; entry := lit "c (2006)" |} ].

Definition episode_text : str :=
  lit "Episode X (aired December 17, 2006) was the first of the season, premiered 1998".

(** ** Further vocabulary *)

(** Parentheses nest properly in [s], [depth] of them being open. *)
Fixpoint balanced_from (depth : nat) (s : str) : bool :=
  match s with
  | [] => Nat.eqb depth 0
  | c :: s' =>
      if (c =? lp)%N then balanced_from (S depth) s'
      else if (c =? rp)%N
           then match depth with
                | 0 => false
                | S d => balanced_from d s'
                end
           else balanced_from depth s'
  end.

(** A parenthesized substring in the everyday sense: a left parenthesis,
    a body whose own parentheses nest properly, and the right parenthesis
    that closes it. *)
Definition parenthesized (text pre body post : str) : Prop :=
  text = pre ++ lp :: body ++ rp :: post /\ balanced_from 0 body = true.

Definition nested_text : str :=
  lit "Premiered 1998 (aired (on NBC) December 17, 2006)".

(** The decimal digits of the database have values 0 to 9. *)
Definition decimal_values_ok (U : unicode_db) : Prop :=
  forall c v, uni_decimal U c = Some v -> (0 <= v <= 9)%Z.

Definition is_li (nd : node) : bool := negb (is_heading nd).

(** The list item's text gives [extract_year] a year. *)
Definition yields_year (U : unicode_db) (t : str) : bool :=
  match extract_year U t with Ok (Some _) => true | _ => false end.

(** A character in capitals, inside ASCII. *)
Definition ascii_to_upper (c : char) : char :=
  if ascii_lower c then (c - 32)%N else c.

Definition key_le (a b : Z * nat) : Prop := (fst a <= fst b)%Z.

(** More sample inputs: a fetch that fails in transport, and a page with
    live-action entries. *)
Definition offline_env : env :=
  {| root := "/repo";
     cwd := "/home/user";
     script_path := "/repo/src/christmas_year_count.py";
     requests_get := fun _ _ _ => Raise ConnectionError;
     parse_wrapper := fun _ => None |}.

Definition live_page : list node :=
  [ {| name := h3; get_text := lit "Live-action" |};
    {| name := li; get_text := lit "Some show, episode (2005)" |};
    {| name := li; get_text := lit "Other show (December 1, 1999)" |};
    {| name := li; get_text := lit "undated entry" |} ].

Section EngineFacts.

Variable U : unicode_db.

Lemma star_greedy_sound cc (k : cont) s : forall p g x,
  star_greedy U cc k p s g = Some x ->
  exists p' s', matches U (StarC cc) p s p' s' /\ k p' s' g = Some x.
Proof.
  induction s as [|c s IH]; intros p g x H; simpl in H.
  - exists p, []. split; [constructor | exact H].
  - destruct (cc_match U cc c) eqn:Ec.
    + destruct (star_greedy U cc k (c :: p) s g) eqn:Es.
      * inversion H; subst. apply IH in Es. destruct Es as (p' & s' & Hm & Hk).
        exists p', s'. split; [eapply MStarStep; eauto | exact Hk].
      * exists p, (c :: s). split; [constructor | exact H].
    + exists p, (c :: s). split; [constructor | exact H].
Qed.

Lemma star_greedy_complete cc (k : cont) p s p' s' g :
  matches U (StarC cc) p s p' s' ->
  k p' s' g <> None ->
  star_greedy U cc k p s g <> None.
Proof.
  intros Hm. remember (StarC cc) as r eqn:Er.
  induction Hm; try discriminate; inversion Er; subst; intros Hk.
  - destruct s as [|c s]; simpl; [exact Hk|].
    destruct (cc_match U cc c); [|exact Hk].
    destruct (star_greedy U cc k (c :: p) s g); [discriminate | exact Hk].
  - simpl. rewrite H.
    destruct (star_greedy U cc k (c :: p) s g) eqn:Es; [discriminate|].
    exfalso. apply (IHHm eq_refl Hk). reflexivity.
Qed.

(** Every success of the matcher is a declarative match followed by a
    success of the continuation. *)
Lemma rmatch_sound r : forall (k : cont) p s g x,
  rmatch U r k p s g = Some x ->
  exists p' s' g', matches U r p s p' s' /\ k p' s' g' = Some x.
Proof.
  induction r as [|cc|cc|r1 IH1 r2 IH2|r1 IH1 r2 IH2| |n r IH];
    intros k p s g x H; simpl in H.
  - exists p, s, g. split; [constructor | exact H].
  - destruct s as [|c s]; [discriminate|].
    destruct (cc_match U cc c) eqn:Ec; [|discriminate].
    exists (c :: p), s, g. split; [constructor; exact Ec | exact H].
  - apply star_greedy_sound in H. destruct H as (p' & s' & Hm & Hk).
    exists p', s', g. split; assumption.
  - apply IH1 in H. destruct H as (p1 & s1 & g1 & Hm1 & H).
    apply IH2 in H. destruct H as (p2 & s2 & g2 & Hm2 & H).
    exists p2, s2, g2. split; [econstructor; eauto | exact H].
  - destruct (rmatch U r1 k p s g) eqn:E1.
    + inversion H; subst. apply IH1 in E1.
      destruct E1 as (p' & s' & g' & Hm & Hk).
      exists p', s', g'. split; [apply MAltL; exact Hm | exact Hk].
    + apply IH2 in H. destruct H as (p' & s' & g' & Hm & Hk).
      exists p', s', g'. split; [apply MAltR; exact Hm | exact Hk].
  - destruct (xorb (word_before U p) (word_after U s)) eqn:Ex; [|discriminate].
    exists p, s, g. split; [constructor; exact Ex | exact H].
  - apply IH in H. destruct H as (p' & s' & g' & Hm & Hk).
    exists p', s', ((n, (List.length p, List.length p')) :: g').
    split; [constructor; exact Hm | exact Hk].
Qed.

(** Backtracking finds a match whenever one exists whose continuation
    succeeds whatever the groups are. *)
Lemma rmatch_complete r : forall (k : cont) p s p' s',
  matches U r p s p' s' ->
  (forall g, k p' s' g <> None) ->
  forall g, rmatch U r k p s g <> None.
Proof.
  induction r as [|cc|cc|r1 IH1 r2 IH2|r1 IH1 r2 IH2| |n r IH];
    intros k p s p' s' Hm Hk g; simpl.
  - inversion Hm; subst. apply Hk.
  - inversion Hm; subst.
    match goal with H : cc_match _ _ _ = true |- _ => rewrite H end. apply Hk.
  - eapply star_greedy_complete; eauto.
  - inversion Hm; subst.
    eapply IH1; [eassumption|]. intros g1.
    eapply IH2; eassumption.
  - inversion Hm; subst.
    + destruct (rmatch U r1 k p s g) eqn:E1; [discriminate|].
      exfalso. eapply IH1; eauto.
    + destruct (rmatch U r1 k p s g) eqn:E1; [discriminate|].
      eapply IH2; eauto.
  - inversion Hm; subst.
    match goal with H : xorb _ _ = true |- _ => rewrite H end. apply Hk.
  - inversion Hm; subst. eapply IH; [eassumption|].
    intros g1. apply Hk.
Qed.

(** A match consumes a prefix of what is ahead. *)
Lemma matches_consumes r p s p' s' :
  matches U r p s p' s' ->
  exists m, s = m ++ s' /\ p' = rev m ++ p.
Proof.
  induction 1.
  - exists []. auto.
  - exists [c]. auto.
  - exists []. auto.
  - destruct IHmatches as (m & -> & ->).
    exists (c :: m). simpl. rewrite <- app_assoc. auto.
  - destruct IHmatches1 as (m1 & -> & ->).
    destruct IHmatches2 as (m2 & -> & ->).
    exists (m1 ++ m2). rewrite rev_app_distr, !app_assoc. auto.
  - assumption.
  - assumption.
  - exists []. auto.
  - assumption.
Qed.

End EngineFacts.

Section YearFacts.

Variable U : unicode_db.

Lemma is_digit_word c : is_digit U c = true -> is_word U c = true.
Proof.
  unfold is_digit, is_word. destruct (is_ascii c).
  - intros ->. reflexivity.
  - destruct (uni_decimal U c); [intros _; apply orb_true_r | discriminate].
Qed.

Lemma year_shape_length tok : year_shape U tok = true -> List.length tok = 4.
Proof.
  destruct tok as [|a [|b [|c [|d [|e tok]]]]]; simpl; try discriminate.
  reflexivity.
Qed.

Lemma year_shape_inv tok :
  year_shape U tok = true ->
  exists a b c d,
    tok = [a; b; c; d] /\
    ((a = 49%N /\ b = 57%N) \/ (a = 50%N /\ b = 48%N)) /\
    is_digit U c = true /\ is_digit U d = true.
Proof.
  destruct tok as [|a [|b [|c [|d [|e tok]]]]]; simpl; try discriminate.
  intros H. apply andb_prop in H. destruct H as [H Hd].
  apply andb_prop in H. destruct H as [H Hc].
  exists a, b, c, d. repeat split; auto.
  apply orb_prop in H. destruct H as [H|H]; apply andb_prop in H;
    destruct H as [Ha Hb]; apply N.eqb_eq in Ha, Hb; auto.
Qed.

Lemma token_here_spec p s :
  token_here U p s = true <->
  exists tok s', s = tok ++ s' /\ year_token U (rev p) tok s'.
Proof.
  unfold year_token, word_at_end, word_at_start. rewrite rev_involutive.
  split.
  - destruct s as [|a [|b [|c [|d s']]]]; try discriminate.
    unfold token_here. intros H.
    apply andb_prop in H. destruct H as [H Ha].
    apply andb_prop in H. destruct H as [H Hb].
    exists [a; b; c; d], s'. repeat split; auto.
    + apply negb_true_iff in Hb. exact Hb.
    + apply negb_true_iff in Ha. exact Ha.
  - intros (tok & s' & -> & Hs & Hb & Ha).
    destruct (year_shape_inv _ Hs) as (a & b & c & d & -> & _).
    simpl app. unfold token_here. rewrite Hs.
    unfold word_before, word_after. rewrite Hb, Ha. reflexivity.
Qed.


Lemma is_word_lead a :
  (a =? 49)%N = true \/ (a =? 50)%N = true -> is_word U a = true.
Proof. intros [H|H]; apply N.eqb_eq in H; subst; reflexivity. Qed.

Lemma rmatch_YEAR (k : cont) p s g :
  rmatch U YEAR_RE k p s g =
  if token_here U p s then
    match s with
    | a :: b :: c :: d :: s' =>
        k (d :: c :: b :: a :: p) s'
          ((1, (List.length p, 4 + List.length p)) :: g)
    | _ => None
    end
  else None.
Proof.
  unfold YEAR_RE, year_alt, lits. simpl.
  destruct s as [|a [|b [|c [|d s']]]]; simpl.
  - destruct (xorb _ _); reflexivity.
  - destruct (xorb _ _), (a =? 49)%N, (a =? 50)%N; reflexivity.
  - destruct (xorb _ _), (a =? 49)%N, (a =? 50)%N, (b =? 57)%N, (b =? 48)%N;
      reflexivity.
  - destruct (xorb _ _), (a =? 49)%N, (a =? 50)%N, (b =? 57)%N, (b =? 48)%N,
      (is_digit U c); reflexivity.
  - pose proof (is_word_lead a) as Hw.
    pose proof (is_digit_word d) as Hd.
    destruct (a =? 49)%N eqn:Ea; destruct (a =? 50)%N eqn:Ea2;
      try (apply N.eqb_eq in Ea; subst a; discriminate Ea2);
      destruct (b =? 57)%N, (b =? 48)%N, (is_digit U c), (is_digit U d);
      simpl; try rewrite Hw by auto; try rewrite Hd by auto;
      destruct (word_before U p), (word_after U s'); simpl;
      try reflexivity;
      try (destruct (is_word U a); reflexivity);
      try (destruct (k _ _ _); reflexivity).
Qed.

Lemma first_token_from_some s : forall p l tok r,
  first_token_from U p s = Some (l, tok, r) ->
  exists a,
    s = a ++ tok ++ r /\ l = rev p ++ a /\ year_token U l tok r /\
    forall a' tok' r',
      s = a' ++ tok' ++ r' -> year_token U (rev p ++ a') tok' r' ->
      List.length a <= List.length a'.
Proof.
  induction s as [|c s IH]; intros p l tok r H.
  - simpl in H. discriminate.
  - unfold first_token_from in H. fold (first_token_from U) in H.
    destruct (token_here U p (c :: s)) eqn:Et.
    + apply token_here_spec in Et. destruct Et as (tok0 & s' & Es & Ht).
      pose proof (year_shape_length tok0 (proj1 Ht)) as Hl.
      assert (firstn 4 (c :: s) = tok0 /\ skipn 4 (c :: s) = s') as [Hf Hs].
      { rewrite Es, <- Hl. split.
        - rewrite firstn_app, Nat.sub_diag, firstn_O, app_nil_r.
          apply firstn_all.
        - rewrite skipn_app, Nat.sub_diag, skipn_O, skipn_all. reflexivity. }
      rewrite Hf, Hs in H. injection H as <- <- <-.
      exists []. simpl. rewrite app_nil_r.
      repeat split; auto; try apply Ht.
      intros; lia.
    + apply IH in H. destruct H as (a & Es & El & Ht & Hmin).
      exists (c :: a). simpl. rewrite Es. split; [reflexivity|].
      split; [rewrite El; simpl; rewrite <- app_assoc; reflexivity|].
      split; [exact Ht|].
      intros a' tok' r' Ea' Ht'. destruct a' as [|c' a'].
      * exfalso. simpl in Ea'. rewrite app_nil_r in Ht'.
        assert (token_here U p (c :: s) = true) as Hc.
        { apply token_here_spec. exists tok', r'. rewrite Es. auto. }
        congruence.
      * simpl in Ea'. inversion Ea'; subst c'.
        simpl. apply le_n_S. apply (Hmin a' tok' r'); [congruence|].
        simpl. rewrite <- app_assoc. exact Ht'.
Qed.

Lemma first_token_from_none s : forall p,
  first_token_from U p s = None ->
  forall a tok r, s = a ++ tok ++ r -> ~ year_token U (rev p ++ a) tok r.
Proof.
  induction s as [|c s IH]; intros p H a tok r Es Ht.
  - destruct a; [|discriminate]. destruct tok; [|discriminate].
    destruct Ht as [Ht _]. discriminate.
  - unfold first_token_from in H. fold (first_token_from U) in H.
    destruct (token_here U p (c :: s)) eqn:Et; [discriminate|].
    destruct a as [|c' a].
    + rewrite app_nil_r in Ht.
      assert (token_here U p (c :: s) = true) as Hc.
      { apply token_here_spec. exists tok, r. auto. }
      congruence.
    + simpl in Es. inversion Es; subst c'.
      apply (IH (c :: p) H a tok r); [assumption|].
      simpl. rewrite <- app_assoc. exact Ht.
Qed.

Lemma first_token_some text l tok r :
  first_token U text = Some (l, tok, r) ->
  text = l ++ tok ++ r /\ first_year_token U l tok r.
Proof.
  intros H. apply first_token_from_some in H.
  destruct H as (a & Es & El & Ht & Hmin). simpl in El. subst a.
  split; [exact Es|]. split; [exact Ht|].
  intros l' tok' r' E Ht'. apply (Hmin l' tok' r'); [congruence | exact Ht'].
Qed.

Lemma first_token_none text :
  first_token U text = None <-> ~ has_year_token U text.
Proof.
  split.
  - intros H (l & tok & r & E & Ht).
    exact (@first_token_from_none text [] H l tok r E Ht).
  - intros H. destruct (first_token U text) as [[[l tok] r]|] eqn:E; [|reflexivity].
    exfalso. apply H. apply first_token_some in E. destruct E as [E [Ht _]].
    exists l, tok, r. auto.
Qed.

Lemma app_inv_length (A : Type) (l1 l2 r1 r2 : list A) :
  l1 ++ r1 = l2 ++ r2 -> List.length l1 = List.length l2 ->
  l1 = l2 /\ r1 = r2.
Proof.
  revert l2. induction l1 as [|x l1 IH]; intros [|y l2] E Hl;
    simpl in *; try discriminate; auto.
  inversion E; subst. destruct (IH l2) as [-> ->]; auto.
Qed.

Lemma first_token_complete l tok r :
  first_year_token U l tok r ->
  first_token U (l ++ tok ++ r) = Some (l, tok, r).
Proof.
  intros [Ht Hmin].
  destruct (first_token U (l ++ tok ++ r)) as [[[l2 tok2] r2]|] eqn:E.
  - apply first_token_some in E. destruct E as [E [Ht2 Hmin2]].
    assert (List.length l = List.length l2) as Hl.
    { apply Nat.le_antisymm; [eapply Hmin; eauto | eapply Hmin2; eauto]. }
    destruct (app_inv_length _ _ _ _ E Hl) as [<- E2].
    assert (List.length tok = List.length tok2) as Hl2.
    { rewrite (year_shape_length tok (proj1 Ht)).
      rewrite (year_shape_length tok2 (proj1 Ht2)). reflexivity. }
    destruct (app_inv_length _ _ _ _ E2 Hl2) as [<- <-]. reflexivity.
  - exfalso. apply first_token_none in E. apply E. exists l, tok, r. auto.
Qed.



Lemma digit_value_some c :
  is_digit U c = true -> digit_value U c = Some (digit_of U c).
Proof.
  unfold digit_of, digit_value, is_digit.
  destruct (is_ascii c).
  - intros ->. reflexivity.
  - destruct (uni_decimal U c); [reflexivity | discriminate].
Qed.

Lemma py_int_token tok :
  year_shape U tok = true -> py_int U tok = Ok (year_of_token U tok).
Proof.
  intros H. destruct (year_shape_inv tok H) as (a & b & c & d & -> & Hab & Hc & Hd).
  assert (is_digit U a = true /\ is_digit U b = true) as [Ha Hb].
  { destruct Hab as [[-> ->]|[-> ->]]; split; reflexivity. }
  unfold py_int, year_of_token. cbn [int_digits].
  rewrite (digit_value_some a Ha), (digit_value_some b Hb).
  rewrite (digit_value_some c Hc), (digit_value_some d Hd).
  f_equal. lia.
Qed.

Lemma search_YEAR s : forall p,
  search_from U YEAR_RE p s =
  match first_token_from U p s with
  | Some (l, _, _) =>
      Some [(0, (List.length l, 4 + List.length l));
            (1, (List.length l, 4 + List.length l))]
  | None => None
  end.
Proof.
  induction s as [|c s IH]; intros p.
  - unfold search_from. rewrite rmatch_YEAR. reflexivity.
  - unfold search_from; fold (search_from U).
    unfold first_token_from; fold (first_token_from U).
    rewrite rmatch_YEAR.
    destruct (token_here U p (c :: s)) eqn:Et.
    + destruct s as [|b [|c2 [|d s']]]; try discriminate.
      rewrite length_rev. reflexivity.
    + apply IH.
Qed.

Lemma substr_middle (l m r : str) :
  substr (l ++ m ++ r) (List.length l, List.length m + List.length l) = m.
Proof.
  unfold substr. simpl.
  rewrite Nat.add_sub.
  rewrite skipn_app, Nat.sub_diag, skipn_all. simpl.
  rewrite firstn_app, Nat.sub_diag, firstn_all. simpl. apply app_nil_r.
Qed.

Lemma re_group_1 text a sp g :
  re_group text ((0, a) :: (1, sp) :: g) 1 = substr text sp.
Proof. reflexivity. Qed.

(** The fallback phase of [extract_year], and the inner search of its
    first phase: the leftmost year token, as a number. *)
Lemma year_phase text :
  match re_search U YEAR_RE text with
  | Some y =>
      match py_int U (re_group text y 1) with
      | Ok n => Ok (Some n)
      | Raise e => Raise e
      end
  | None => Ok None
  end = Ok (year_in U text).
Proof.
  unfold re_search, year_in. rewrite search_YEAR. unfold first_token.
  destruct (first_token_from U [] text) as [[[l tok] r]|] eqn:E; [|reflexivity].
  apply first_token_some in E. destruct E as [E [Ht _]].
  pose proof (year_shape_length tok (proj1 Ht)) as Hl.
  rewrite re_group_1, E, <- Hl, substr_middle.
  rewrite (py_int_token tok (proj1 Ht)). reflexivity.
Qed.

Lemma extract_year_phases text :
  extract_year U text =
  match re_search U DATE_PARENS_RE text with
  | Some m =>
      match year_in U (re_group text m 1) with
      | Some y => Ok (Some y)
      | None => Ok (year_in U text)
      end
  | None => Ok (year_in U text)
  end.
Proof.
  unfold extract_year. rewrite year_phase.
  destruct (re_search U DATE_PARENS_RE text) as [m|]; [|reflexivity].
  pose proof (year_phase (re_group text m 1)) as H.
  destruct (re_search U YEAR_RE (re_group text m 1)) as [y|].
  - destruct (year_in U (re_group text m 1)) eqn:E.
    + rewrite H. reflexivity.
    + exfalso. destruct (py_int U (re_group (re_group text m 1) y 1)); discriminate.
  - injection H as H. rewrite <- H. reflexivity.
Qed.


End YearFacts.

Section DateFacts.

Variable U : unicode_db.

Lemma star_matches_inv cc p s p' s' :
  matches U (StarC cc) p s p' s' ->
  exists m, s = m ++ s' /\ p' = rev m ++ p /\
            Forall (fun c => cc_match U cc c = true) m.
Proof.
  intros H. remember (StarC cc) as r eqn:Er.
  induction H; try discriminate; inversion Er; subst.
  - exists []. auto.
  - destruct (IHmatches eq_refl) as (m & -> & -> & Hall).
    exists (c :: m). simpl. rewrite <- app_assoc. auto.
Qed.

Lemma star_matches_intro cc m : forall p s',
  Forall (fun c => cc_match U cc c = true) m ->
  matches U (StarC cc) p (m ++ s') (rev m ++ p) s'.
Proof.
  induction m as [|c m IH]; intros p s' H.
  - constructor.
  - inversion H; subst. simpl. rewrite <- app_assoc.
    apply MStarStep; [assumption|]. apply IH. assumption.
Qed.

Lemma not_rp_run m :
  Forall (fun c => cc_match U (CNot rp) c = true) m <-> ~ In rp m.
Proof.
  rewrite Forall_forall. split.
  - intros H Hin. specialize (H _ Hin). cbn [cc_match] in H.
    rewrite N.eqb_refl in H. discriminate.
  - intros H c Hin. cbn [cc_match]. apply negb_true_iff. apply N.eqb_neq.
    intros ->. auto.
Qed.

Lemma year_alt_matches_inv p s p' s' :
  matches U year_alt p s p' s' ->
  exists tok, s = tok ++ s' /\ p' = rev tok ++ p /\ year_shape U tok = true.
Proof.
  unfold year_alt, lits. simpl. intros H.
  inversion H; subst; clear H;
  repeat match goal with
         | H : matches _ (Seq _ _) _ _ _ _ |- _ => inversion H; subst; clear H
         | H : matches _ (Chr _) _ _ _ _ |- _ => inversion H; subst; clear H
         | H : matches _ Eps _ _ _ _ |- _ => inversion H; subst; clear H
         end;
  repeat match goal with
         | H : cc_match _ (CLit _) _ = true |- _ =>
             simpl in H; apply N.eqb_eq in H; subst
         | H : cc_match _ CDigit _ = true |- _ => simpl in H
         end;
  match goal with
  | |- exists _, ?a :: ?b :: ?c :: ?d :: _ = _ /\ _ =>
      exists [a; b; c; d]
  end; simpl;
  repeat match goal with H : is_digit _ _ = true |- _ => rewrite H; clear H end;
  auto.
Qed.

Lemma year_alt_matches_intro tok p s' :
  year_shape U tok = true ->
  matches U year_alt p (tok ++ s') (rev tok ++ p) s'.
Proof.
  intros H. destruct (year_shape_inv U tok H) as (a & b & c & d & -> & Hab & Hc & Hd).
  unfold year_alt, lits. simpl.
  destruct Hab as [[-> ->]|[-> ->]]; [apply MAltL | apply MAltR];
    repeat (econstructor; try eassumption); reflexivity.
Qed.

Lemma year_shape_edges tok :
  year_shape U tok = true ->
  word_after U tok = true /\ word_before U (rev tok) = true.
Proof.
  intros H. destruct (year_shape_inv U tok H) as (a & b & c & d & -> & Hab & Hc & Hd).
  simpl. split.
  - destruct Hab as [[-> _]|[-> _]]; reflexivity.
  - apply is_digit_word. exact Hd.
Qed.

Lemma word_after_app a b :
  a <> [] -> word_after U (a ++ b) = word_after U a.
Proof. destruct a; [congruence | reflexivity]. Qed.

Lemma word_before_lp l p :
  word_before U (rev l ++ lp :: p) = word_at_end U l.
Proof.
  unfold word_at_end. destruct (rev l); reflexivity.
Qed.

Lemma word_after_rp r rest :
  word_after U (r ++ rp :: rest) = word_at_start U r.
Proof.
  unfold word_at_start. destruct r; reflexivity.
Qed.

Lemma tok_nonempty tok : year_shape U tok = true -> tok <> [].
Proof. intros H ->. discriminate. Qed.

Lemma date_inner_inv p s p' rest :
  matches U date_inner (lp :: p) s p' (rp :: rest) ->
  exists body,
    s = body ++ rp :: rest /\ p' = rev body ++ lp :: p /\
    ~ In rp body /\ has_year_token U body.
Proof.
  unfold date_inner. intros H.
  repeat match goal with
         | H : matches _ (Seq _ _) _ _ _ _ |- _ => inversion H; subst; clear H
         | H : matches _ (Group _ _) _ _ _ _ |- _ => inversion H; subst; clear H
         | H : matches _ WordB _ _ _ _ |- _ => inversion H; subst; clear H
         end.
  repeat match goal with
         | H : matches _ (StarC _) _ _ _ _ |- _ =>
             apply star_matches_inv in H; destruct H as (? & ? & ? & ?)
         | H : matches _ year_alt _ _ _ _ |- _ =>
             apply year_alt_matches_inv in H; destruct H as (? & ? & ? & ?)
         end.
  subst.
  match goal with
  | H1 : Forall _ ?l, H2 : Forall _ ?r, H3 : year_shape _ ?tok = true |- _ =>
      rename l into l0; rename r into r0; rename tok into tok0;
      rename H1 into Hl; rename H2 into Hr; rename H3 into Ht
  end.
  apply not_rp_run in Hl, Hr.
  destruct (year_shape_edges tok0 Ht) as [Ha Hb].
  exists (l0 ++ tok0 ++ r0).
  split; [rewrite <- !app_assoc; reflexivity|].
  split; [rewrite !rev_app_distr, <- !app_assoc; reflexivity|].
  split.
  - intros Hin. apply in_app_or in Hin. destruct Hin as [Hin|Hin]; [auto|].
    apply in_app_or in Hin. destruct Hin as [Hin|Hin]; [|auto].
    destruct (year_shape_inv U tok0 Ht) as (a & b & c & d & -> & Hab & Hc & Hd).
    assert (is_digit U rp = true) as Hx.
    { destruct Hab as [[-> ->]|[-> ->]];
        simpl in Hin; intuition (subst; try discriminate; auto). }
    discriminate Hx.
  - exists l0, tok0, r0. split; [reflexivity|].
    split; [exact Ht|]. split.
    + match goal with
      | H : xorb (word_before U (rev l0 ++ _)) _ = true |- _ =>
          rewrite word_before_lp in H;
          rewrite word_after_app in H by (apply tok_nonempty; exact Ht);
          rewrite Ha in H; destruct (word_at_end U l0); [discriminate|reflexivity]
      end.
    + match goal with
      | H : xorb (word_before U (rev tok0 ++ _)) _ = true |- _ =>
          rewrite word_after_rp in H;
          revert H; destruct (rev tok0) eqn:Er;
          [apply (f_equal (@rev _)) in Er; rewrite rev_involutive in Er;
           subst; discriminate|];
          simpl word_before; simpl in Hb; rewrite Hb;
          destruct (word_at_start U r0); [discriminate|reflexivity]
      end.
Qed.


Lemma substr_at (l m r : str) i j :
  List.length l = i -> j = List.length m + i ->
  substr (l ++ m ++ r) (i, j) = m.
Proof. intros <- ->. apply substr_middle. Qed.

Lemma date_inner_intro l tok r p rest :
  ~ In rp (l ++ tok ++ r) -> year_token U l tok r ->
  matches U date_inner (lp :: p) ((l ++ tok ++ r) ++ rp :: rest)
          (rev (l ++ tok ++ r) ++ lp :: p) (rp :: rest).
Proof.
  intros Hn (Ht & Hb & Ha).
  destruct (year_shape_edges tok Ht) as [Hta Htb].
  assert (~ In rp l /\ ~ In rp r) as [Hl Hr].
  { split; intros Hin; apply Hn; apply in_or_app; [left; assumption|].
    right. apply in_or_app. right. assumption. }
  apply not_rp_run in Hl, Hr.
  unfold date_inner.
  rewrite <- !app_assoc, !rev_app_distr, <- !app_assoc.
  eapply MSeq; [apply star_matches_intro; exact Hl|].
  eapply MSeq.
  { apply MWordB. rewrite word_before_lp, Hb.
    rewrite word_after_app by (apply tok_nonempty; exact Ht).
    rewrite Hta. reflexivity. }
  eapply MSeq; [apply MGroup; apply year_alt_matches_intro; exact Ht|].
  eapply MSeq; [|apply star_matches_intro; exact Hr].
  apply MWordB. rewrite word_after_rp, Ha.
  destruct (rev tok) eqn:Er.
  - apply (f_equal (@rev _)) in Er. rewrite rev_involutive in Er.
    subst. discriminate.
  - simpl in Htb. simpl. rewrite Htb. reflexivity.
Qed.

Lemma search_from_unfold r p s :
  search_from U r p s =
  match rmatch U r (kfin p) p s [] with
  | Some g => Some g
  | None => match s with
            | c :: s' => search_from U r (c :: p) s'
            | [] => None
            end
  end.
Proof. destruct s; reflexivity. Qed.

Lemma date_at_sound q p s g :
  rmatch U DATE_PARENS_RE (kfin q) p s [] = Some g ->
  exists body rest,
    s = lp :: body ++ rp :: rest /\ ~ In rp body /\ has_year_token U body /\
    re_group (rev p ++ s) g 1 = body.
Proof.
  unfold DATE_PARENS_RE. cbn [rmatch]. intros H.
  destruct s as [|c s]; [discriminate|].
  destruct (cc_match U (CLit lp) c) eqn:Ec; [|discriminate].
  cbn [cc_match] in Ec. apply N.eqb_eq in Ec. subst c.
  apply rmatch_sound in H. destruct H as (p' & s' & g' & Hm & Hk).
  destruct s' as [|c s']; [discriminate|].
  destruct (cc_match U (CLit rp) c) eqn:Ec; [|discriminate].
  cbn [cc_match] in Ec. apply N.eqb_eq in Ec. subst c.
  apply date_inner_inv in Hm.
  destruct Hm as (body & -> & -> & Hn & Ht).
  exists body, s'. repeat split; auto.
  unfold kfin in Hk. injection Hk as <-.
  rewrite re_group_1.
  change (rev p ++ lp :: body ++ rp :: s') with (rev p ++ [lp] ++ body ++ rp :: s').
  rewrite app_assoc.
  apply substr_at; rewrite ?length_app, ?length_rev; simpl; lia.
Qed.

Lemma date_at_complete q p body rest :
  ~ In rp body -> has_year_token U body ->
  rmatch U DATE_PARENS_RE (kfin q) p (lp :: body ++ rp :: rest) [] <> None.
Proof.
  intros Hn (l & tok & r & -> & Ht).
  unfold DATE_PARENS_RE. cbn [rmatch].
  replace (cc_match U (CLit lp) lp) with true by reflexivity.
  eapply rmatch_complete.
  - apply date_inner_intro; eassumption.
  - intros g. cbn [rmatch]. discriminate.
Qed.

(** [search] reports the leftmost position at which the pattern matches. *)
Lemma search_from_some r s : forall p g,
  search_from U r p s = Some g ->
  exists a b,
    s = a ++ b /\
    rmatch U r (kfin (rev a ++ p)) (rev a ++ p) b [] = Some g /\
    forall a' b', s = a' ++ b' -> List.length a' < List.length a ->
      rmatch U r (kfin (rev a' ++ p)) (rev a' ++ p) b' [] = None.
Proof.
  induction s as [|c s IH]; intros p g H; rewrite search_from_unfold in H.
  - destruct (rmatch U r (kfin p) p [] []) eqn:E; [|discriminate].
    injection H as <-. exists [], []. repeat split; auto.
    intros a' b' _ Hl. simpl in Hl. lia.
  - destruct (rmatch U r (kfin p) p (c :: s) []) eqn:E.
    + injection H as <-. exists [], (c :: s). repeat split; auto.
      intros a' b' _ Hl. simpl in Hl. lia.
    + apply IH in H. destruct H as (a & b & -> & Hm & Hmin).
      exists (c :: a), b. simpl. rewrite <- app_assoc. repeat split; auto.
      intros a' b' Ea Hl. destruct a' as [|c' a'].
      * simpl in Ea. subst b'. exact E.
      * simpl in Ea. injection Ea as <- Ea. simpl. rewrite <- app_assoc.
        apply Hmin; [exact Ea | simpl in Hl; lia].
Qed.

Lemma search_from_none r s : forall p,
  search_from U r p s = None ->
  forall a b, s = a ++ b ->
    rmatch U r (kfin (rev a ++ p)) (rev a ++ p) b [] = None.
Proof.
  induction s as [|c s IH]; intros p H a b E; rewrite search_from_unfold in H.
  - destruct a; [|discriminate]. simpl in E. subst b. simpl.
    destruct (rmatch U r (kfin p) p [] []); [discriminate | reflexivity].
  - destruct (rmatch U r (kfin p) p (c :: s) []) eqn:Em; [discriminate|].
    destruct a as [|c' a].
    + simpl in E. subst b. exact Em.
    + simpl in E. injection E as <- E. simpl. rewrite <- app_assoc.
      apply IH; assumption.
Qed.

Lemma first_occurrence_unique (A : Type) (x : A) l1 : forall l2 r1 r2,
  l1 ++ x :: r1 = l2 ++ x :: r2 -> ~ In x l1 -> ~ In x l2 ->
  l1 = l2 /\ r1 = r2.
Proof.
  induction l1 as [|a l1 IH]; intros [|b l2] r1 r2 E H1 H2; simpl in *.
  - injection E as <-. auto.
  - injection E as <- _. exfalso. apply H2. auto.
  - injection E as -> _. exfalso. apply H1. auto.
  - injection E as <- E. destruct (IH l2 r1 r2 E) as [-> ->]; auto.
Qed.

Lemma date_search_some text g :
  re_search U DATE_PARENS_RE text = Some g ->
  exists pre body post,
    paren_at text pre body post /\ has_year_token U body /\
    re_group text g 1 = body /\
    forall pre' body' post',
      paren_at text pre' body' post' -> has_year_token U body' ->
      List.length pre <= List.length pre'.
Proof.
  intros H. apply search_from_some in H.
  destruct H as (a & b & -> & Hm & Hmin). rewrite app_nil_r in Hm.
  apply date_at_sound in Hm. rewrite rev_involutive in Hm.
  destruct Hm as (body & rest & -> & Hn & Ht & Hg).
  exists a, body, rest. repeat split; auto.
  intros pre' body' post' [E Hn'] Ht'.
  destruct (Nat.le_gt_cases (List.length a) (List.length pre')) as [|Hlt];
    [assumption|].
  exfalso. specialize (Hmin pre' _ E Hlt).
  revert Hmin. apply date_at_complete; assumption.
Qed.

Lemma date_search_none text :
  re_search U DATE_PARENS_RE text = None ->
  forall pre body post, paren_at text pre body post -> ~ has_year_token U body.
Proof.
  intros H pre body post [E Hn] Ht.
  pose proof (search_from_none _ _ H pre _ E) as Hm.
  revert Hm. apply date_at_complete; assumption.
Qed.

Lemma word_at_end_lp pre l :
  word_at_end U (pre ++ lp :: l) = word_at_end U l.
Proof.
  unfold word_at_end. rewrite rev_app_distr. simpl.
  rewrite <- app_assoc. destruct (rev l); reflexivity.
Qed.

Lemma word_at_start_rp r post :
  word_at_start U (r ++ rp :: post) = word_at_start U r.
Proof. destruct r; reflexivity. Qed.

(** A year token of a parenthetical is a year token of the whole text. *)
Lemma paren_token_in_text text pre body post :
  paren_at text pre body post -> has_year_token U body ->
  has_year_token U text.
Proof.
  intros [-> _] (l & tok & r & -> & Hs & Hb & Ha).
  exists (pre ++ lp :: l), tok, (r ++ rp :: post). split.
  - repeat (rewrite <- ?app_assoc; simpl). reflexivity.
  - split; [exact Hs|]. rewrite word_at_end_lp, word_at_start_rp. auto.
Qed.

(** C1, as the code has it.  A parenthetical is a left parenthesis, text
    free of right parentheses, and the next right parenthesis.  If the
    text has a parenthetical holding a year token, and no parenthetical
    opening further left holds one, [extract_year] returns the leftmost
    year token of that parenthetical, whatever other year the text
    carries outside it. *)
Theorem extract_year_parenthetical_first text pre body post l tok r :
  paren_at text pre body post ->
  body = l ++ tok ++ r ->
  first_year_token U l tok r ->
  (forall pre' body' post',
      paren_at text pre' body' post' ->
      List.length pre' < List.length pre -> ~ has_year_token U body') ->
  extract_year U text = Ok (Some (year_of_token U tok)) /\
  forall y, y <> year_of_token U tok -> extract_year U text <> Ok (Some y).
Proof.
  intros Hp Eb Hf Hearlier.
  assert (extract_year U text = Ok (Some (year_of_token U tok))) as Hres.
  { assert (has_year_token U body) as Hb.
    { exists l, tok, r. split; [exact Eb | apply Hf]. }
    rewrite extract_year_phases.
    destruct (re_search U DATE_PARENS_RE text) as [g|] eqn:Es.
    - apply date_search_some in Es.
      destruct Es as (pre2 & body2 & post2 & Hp2 & Ht2 & -> & Hmin).
      assert (List.length pre2 = List.length pre) as Hl.
      { apply Nat.le_antisymm; [eapply Hmin; eauto|].
        destruct (Nat.le_gt_cases (List.length pre) (List.length pre2));
          [assumption|].
        exfalso. eapply Hearlier; eauto. }
      destruct Hp as [E Hn]. destruct Hp2 as [E2 Hn2]. rewrite E in E2.
      destruct (app_inv_length _ _ _ _ E2 (eq_sym Hl)) as [_ E3].
      injection E3 as E3.
      destruct (first_occurrence_unique _ _ _ _ _ E3 Hn Hn2) as [<- _].
      unfold year_in. rewrite Eb, (first_token_complete Hf). reflexivity.
    - exfalso. eapply date_search_none; eauto. }
  split; [exact Hres|].
  intros y Hy. rewrite Hres. congruence.
Qed.

(** C7.  On a text without any year token [extract_year] returns no
    year, without raising; the loop then counts the list item as scanned
    and leaves the rows as they were. *)
Theorem extract_year_no_token text :
  ~ has_year_token U text ->
  extract_year U text = Ok None /\
  forall st,
    scan_step U st {| name := li; get_text := text |} =
    Ok {| rows := rows st;
          in_animation := in_animation st;
          total_li := S (total_li st);
          li_with_year := li_with_year st |}.
Proof.
  intros Hno.
  assert (extract_year U text = Ok None) as Hres.
  { rewrite extract_year_phases.
    assert (year_in U text = None) as Hy.
    { unfold year_in. apply first_token_none in Hno. rewrite Hno. reflexivity. }
    rewrite Hy.
    destruct (re_search U DATE_PARENS_RE text) as [g|] eqn:Es; [|reflexivity].
    exfalso. apply date_search_some in Es.
    destruct Es as (pre & body & post & Hp & Ht & _).
    apply Hno. eapply paren_token_in_text; eauto. }
  split; [exact Hres|].
  intros st. unfold scan_step. simpl. rewrite Hres. reflexivity.
Qed.

(** [extract_year] never raises. *)
Lemma extract_year_total text : exists o, extract_year U text = Ok o.
Proof.
  rewrite extract_year_phases.
  destruct (re_search U DATE_PARENS_RE text) as [g|]; [|eauto].
  destruct (year_in U (re_group text g 1)); eauto.
Qed.

End DateFacts.

Section FilterFacts.

Variable U : unicode_db.

Lemma seq_of_matches_inv ccs : forall p s p' s',
  matches U (seq_of ccs) p s p' s' ->
  exists mid, s = mid ++ s' /\ p' = rev mid ++ p /\
              Forall2 (fun cc c => cc_match U cc c = true) ccs mid.
Proof.
  induction ccs as [|cc ccs IH]; intros p s p' s' H; simpl in H.
  - inversion H; subst. exists []. auto.
  - inversion H; subst; clear H.
    match goal with H : matches _ (Chr _) _ _ _ _ |- _ =>
      inversion H; subst; clear H end.
    match goal with H : matches _ (seq_of _) _ _ _ _ |- _ =>
      apply IH in H; destruct H as (mid & -> & -> & Hall) end.
    exists (c :: mid). simpl. rewrite <- app_assoc. auto.
Qed.

Lemma seq_of_matches_intro ccs : forall mid p s',
  Forall2 (fun cc c => cc_match U cc c = true) ccs mid ->
  matches U (seq_of ccs) p (mid ++ s') (rev mid ++ p) s'.
Proof.
  induction ccs as [|cc ccs IH]; intros mid p s' H; inversion H; subst; simpl.
  - constructor.
  - rewrite <- app_assoc. eapply MSeq; [constructor; assumption|].
    apply IH. assumption.
Qed.

Lemma matches_alt_inv r1 r2 p s p' s' :
  matches U (Alt r1 r2) p s p' s' ->
  matches U r1 p s p' s' \/ matches U r2 p s p' s'.
Proof. intros H. inversion H; subst; auto. Qed.

Lemma matches_seq_inv r1 r2 p s p2 s2 :
  matches U (Seq r1 r2) p s p2 s2 ->
  exists p1 s1, matches U r1 p s p1 s1 /\ matches U r2 p1 s1 p2 s2.
Proof. intros H. inversion H; subst; eauto. Qed.

Lemma matches_wordb_inv p s p' s' :
  matches U WordB p s p' s' ->
  p' = p /\ s' = s /\ xorb (word_before U p) (word_after U s) = true.
Proof. intros H. inversion H; subst; auto. Qed.

Lemma matches_group_inv n r p s p' s' :
  matches U (Group n r) p s p' s' -> matches U r p s p' s'.
Proof. intros H. inversion H; subst; auto. Qed.

Lemma alt_of_matches rs p s p' s' :
  rs <> [] ->
  (matches U (alt_of rs) p s p' s' <->
   exists r, In r rs /\ matches U r p s p' s').
Proof.
  induction rs as [|r rs IH]; [congruence|]. intros _.
  destruct rs as [|r2 rs].
  - simpl. split; [eauto|]. intros (r' & [<-|[]] & H). exact H.
  - change (alt_of (r :: r2 :: rs)) with (Alt r (alt_of (r2 :: rs))).
    split.
    + intros H. apply matches_alt_inv in H. destruct H as [H|H].
      * exists r. split; [left; reflexivity | assumption].
      * apply IH in H; [|discriminate]. destruct H as (r' & Hin & Hm).
        exists r'. split; [right; assumption | assumption].
    + intros (r' & [<-|Hin] & Hm).
      * apply MAltL. assumption.
      * apply MAltR. apply IH; [discriminate|]. eauto.
Qed.

(** [search] succeeds exactly when the pattern matches somewhere. *)
Lemma re_search_matches r text :
  re_search U r text <> None <->
  exists l b p' s', text = l ++ b /\ matches U r (rev l) b p' s'.
Proof.
  split.
  - destruct (re_search U r text) as [g|] eqn:E; [|congruence]. intros _.
    apply search_from_some in E. destruct E as (a & b & -> & Hm & _).
    rewrite app_nil_r in Hm. apply rmatch_sound in Hm.
    destruct Hm as (p' & s' & _ & Hm & _).
    exists a, b, p', s'. split; [reflexivity | assumption].
  - intros (l & b & p' & s' & -> & Hm) E.
    pose proof (search_from_none U _ _ E l b eq_refl) as Hn.
    rewrite app_nil_r in Hn. revert Hn.
    eapply rmatch_complete; [eassumption|]. discriminate.
Qed.

Lemma Forall2_map_l (A B C : Type) (f : A -> B) (R : B -> C -> Prop) l m :
  Forall2 R (map f l) m <-> Forall2 (fun a c => R (f a) c) l m.
Proof.
  revert m. induction l as [|a l IH]; intros m; split; intros H;
    inversion H; subst; constructor; auto; apply IH; assumption.
Qed.

(** What the compiled literal accepts under re.I is what ignoring case
    means. *)
Lemma ci_letter_matches k c :
  ascii_lower k = true ->
  (if (c <? 128)%N
   then ((c =? k) || (c + 32 =? k))%N
   else ((uni_lower U c =? k)
         || ((k =? 105) && (uni_lower U c =? 305))
         || ((k =? 115) && (uni_lower U c =? 383)))%N)
  = cc_match U (CLitI k) c.
Proof.
  unfold ascii_lower. intros Hk.
  apply andb_prop in Hk. destruct Hk as [Hk1 Hk2]. apply N.leb_le in Hk1, Hk2.
  cbn [cc_match]. unfold py_lower, is_ascii, ascii_upper, sre_fixes.
  destruct (c <? 128)%N eqn:Ec.
  - apply N.ltb_lt in Ec.
    assert (forall x, (x < 160)%N ->
              existsb (N.eqb x)
                (if (k =? 105)%N then [305%N]
                 else if (k =? 115)%N then [383%N] else []) = false) as Hfix.
    { intros x Hx. destruct (k =? 105)%N; [|destruct (k =? 115)%N]; simpl;
        rewrite ?orb_false_r; try reflexivity; apply N.eqb_neq; lia. }
    destruct ((65 <=? c)%N && (c <=? 90)%N) eqn:Eu.
    + apply andb_prop in Eu. destruct Eu as [E1 E2]. apply N.leb_le in E1, E2.
      rewrite Hfix by lia. rewrite orb_false_r.
      assert ((c =? k)%N = false) as -> by (apply N.eqb_neq; lia).
      reflexivity.
    + rewrite Hfix by lia. rewrite orb_false_r.
      assert ((c + 32 =? k)%N = false) as ->.
      { apply N.eqb_neq. intros E.
        apply andb_false_iff in Eu.
        destruct Eu as [Eu|Eu]; apply N.leb_gt in Eu; lia. }
      apply orb_false_r.
  - destruct (k =? 105)%N eqn:E1; [|destruct (k =? 115)%N eqn:E2]; simpl.
    + apply N.eqb_eq in E1. subst k.
      rewrite !orb_false_r. reflexivity.
    + rewrite !orb_false_r. reflexivity.
    + rewrite !orb_false_r. reflexivity.
Qed.

Lemma ci_char_matches kc c : ci_char U kc c = cc_match U (literal_i kc) c.
Proof.
  unfold ci_char, keyword_letter, literal_i, iscased, ascii_upper, ascii_lower.
  destruct ((97 <=? kc)%N && (kc <=? 122)%N) eqn:El.
  - assert ((65 <=? kc)%N && (kc <=? 90)%N = false) as ->.
    { apply andb_prop in El. destruct El as [E1 E2]. apply N.leb_le in E1, E2.
      apply andb_false_iff. right. apply N.leb_gt. lia. }
    cbn [orb]. apply ci_letter_matches. exact El.
  - destruct ((65 <=? kc)%N && (kc <=? 90)%N) eqn:Eu; cbn [orb].
    + apply ci_letter_matches.
      apply andb_prop in Eu. destruct Eu as [E1 E2]. apply N.leb_le in E1, E2.
      unfold ascii_lower. apply andb_true_iff. split; apply N.leb_le; lia.
    + reflexivity.
Qed.

Lemma ci_word_matches kw w :
  ci_word U kw w <->
  Forall2 (fun cc c => cc_match U cc c = true) (map literal_i (lit kw)) w.
Proof.
  unfold ci_word. rewrite Forall2_map_l.
  split; intros H; induction H; constructor; auto;
    [rewrite <- ci_char_matches | rewrite ci_char_matches]; assumption.
Qed.

Lemma lits_i_contains kw text :
  re_search U (lits_i kw) text <> None <-> ci_contains U kw text.
Proof.
  rewrite re_search_matches. unfold ci_contains, lits_i. split.
  - intros (l & b & p' & s' & -> & Hm).
    apply seq_of_matches_inv in Hm. destruct Hm as (mid & -> & _ & Hall).
    apply ci_word_matches in Hall.
    exists l, mid, s'. split; [reflexivity | assumption].
  - intros (l & mid & r & -> & Hall).
    exists l, (mid ++ r), (rev mid ++ rev l), r. split; [reflexivity|].
    apply seq_of_matches_intro. apply ci_word_matches. exact Hall.
Qed.

Lemma specials_contains text :
  str_contains U specials_pat text = true <->
  exists kw, In kw specials_keywords /\ ci_contains U kw text.
Proof.
  unfold str_contains.
  assert (re_search U specials_pat text <> None <->
          exists kw, In kw specials_keywords /\ ci_contains U kw text) as H.
  { rewrite re_search_matches. unfold specials_pat. split.
    - intros (l & b & p' & s' & E & Hm).
      apply alt_of_matches in Hm; [|discriminate].
      destruct Hm as (r & Hin & Hm). apply in_map_iff in Hin.
      destruct Hin as (kw & <- & Hin). exists kw. split; [assumption|].
      apply lits_i_contains. apply re_search_matches.
      exists l, b, p', s'. split; assumption.
    - intros (kw & Hin & Hc). apply lits_i_contains in Hc.
      apply re_search_matches in Hc.
      destruct Hc as (l & b & p' & s' & E & Hm).
      exists l, b, p', s'. split; [assumption|].
      apply alt_of_matches; [discriminate|].
      exists (lits_i kw). split; [apply in_map; assumption | assumption]. }
  destruct (re_search U specials_pat text); split; intros H1.
  - apply H. discriminate.
  - reflexivity.
  - discriminate.
  - apply H in H1. congruence.
Qed.

(** Inside ASCII, ignoring case means what it says: a lower-case keyword
    letter is matched by itself and by its capital, any other keyword
    character by itself only. *)
Lemma ci_char_ascii_letter kc c :
  ascii_lower kc = true -> is_ascii c = true ->
  (ci_char U kc c = true <-> c = kc \/ (c + 32)%N = kc).
Proof.
  rewrite ci_char_matches.
  unfold literal_i, iscased, ascii_lower, ascii_upper, is_ascii.
  intros Hk Hc.
  apply andb_prop in Hk. destruct Hk as [Hk1 Hk2].
  apply N.leb_le in Hk1, Hk2. apply N.ltb_lt in Hc.
  assert ((65 <=? kc)%N && (kc <=? 90)%N = false) as ->.
  { apply andb_false_iff. right. apply N.leb_gt. lia. }
  assert ((97 <=? kc)%N && (kc <=? 122)%N = true) as ->.
  { apply andb_true_iff. split; apply N.leb_le; lia. }
  cbn [orb cc_match]. unfold py_lower, is_ascii, ascii_upper.
  assert ((c <? 128)%N = true) as -> by (apply N.ltb_lt; lia).
  assert (forall x, (x < 160)%N -> existsb (N.eqb x) (sre_fixes kc) = false)
    as Hfix.
  { intros x Hx. unfold sre_fixes.
    destruct (kc =? 105)%N; [|destruct (kc =? 115)%N]; simpl;
      rewrite ?orb_false_r; try reflexivity; apply N.eqb_neq; lia. }
  destruct ((65 <=? c)%N && (c <=? 90)%N) eqn:Eu.
  - apply andb_prop in Eu. destruct Eu as [E1 E2]. apply N.leb_le in E1, E2.
    rewrite Hfix by lia. rewrite orb_false_r, N.eqb_eq. split; [auto|].
    intros [->|H]; [lia | exact H].
  - rewrite Hfix by lia. rewrite orb_false_r, N.eqb_eq. split; [auto|].
    intros [H| <-]; [exact H|].
    apply andb_false_iff in Eu. destruct Eu as [E|E]; apply N.leb_gt in E; lia.
Qed.

Lemma ci_char_uncased kc c :
  iscased kc = false -> (ci_char U kc c = true <-> c = kc).
Proof.
  rewrite ci_char_matches.
  unfold literal_i. intros ->. cbn [cc_match]. apply N.eqb_eq.
Qed.

Lemma lits_i_matches kw p s p' s' :
  matches U (lits_i kw) p s p' s' <->
  exists w, s = w ++ s' /\ p' = rev w ++ p /\ ci_word U kw w.
Proof.
  unfold lits_i. split.
  - intros H. apply seq_of_matches_inv in H.
    destruct H as (w & -> & -> & Hall). apply ci_word_matches in Hall.
    exists w. auto.
  - intros (w & -> & -> & Hall). apply seq_of_matches_intro.
    apply ci_word_matches. exact Hall.
Qed.

(** ANIM_HEADING_RE finds a match exactly in the headings that carry one
    of its two words as a whole word. *)
Lemma anim_heading_spec h : anim_heading U h = true <-> anim_titled U h.
Proof.
  assert (re_search U ANIM_HEADING_RE h <> None <-> anim_titled U h) as H.
  { rewrite re_search_matches. unfold anim_titled, boundary, word_at_end.
    split.
    - intros (l & b & p' & s' & -> & Hm). unfold ANIM_HEADING_RE in Hm.
      apply matches_seq_inv in Hm. destruct Hm as (p1 & s1 & Hb1 & Hm).
      apply matches_wordb_inv in Hb1. destruct Hb1 as (-> & -> & Hb1).
      apply matches_seq_inv in Hm. destruct Hm as (p2 & s2 & Hg & Hb2).
      apply matches_wordb_inv in Hb2. destruct Hb2 as (-> & -> & Hb2).
      apply matches_group_inv in Hg.
      assert (exists w, b = w ++ s2 /\ p2 = rev w ++ rev l /\
                        (ci_word U "animation" w \/ ci_word U "animated" w))
        as (w & -> & -> & Hw).
      { apply matches_alt_inv in Hg.
        destruct Hg as [Ha|Ha]; apply lits_i_matches in Ha;
          destruct Ha as (w & ? & ? & ?); exists w; auto. }
      exists l, w, s2. rewrite rev_app_distr. auto.
    - intros (l & w & r & -> & Hw & Hb1 & Hb2).
      exists l, (w ++ r), (rev w ++ rev l), r. split; [reflexivity|].
      unfold ANIM_HEADING_RE.
      eapply MSeq; [apply MWordB; exact Hb1|].
      eapply MSeq; [apply MGroup|apply MWordB].
      + destruct Hw as [Hw|Hw]; [apply MAltL | apply MAltR];
          apply lits_i_matches; exists w; auto.
      + rewrite rev_app_distr in Hb2. exact Hb2. }
  unfold anim_heading.
  destruct (re_search U ANIM_HEADING_RE h); split; intros H1.
  - apply H. discriminate.
  - reflexivity.
  - discriminate.
  - apply H in H1. congruence.
Qed.

(** C3.  The two filters together keep, in order, exactly the entries
    that are not flagged as animation and whose text contains none of
    the five keywords, ignoring case. *)
Theorem filter_keeps_exactly :
  exists keep : row -> bool,
    (forall r, keep r = true <->
       in_animation_section r = false /\
       forall kw, In kw specials_keywords -> ~ ci_contains U kw (entry r)) /\
    forall df, apply_filters U df = filter keep df.
Proof.
  exists (fun r => Bool.eqb (in_animation_section r) false
                   && negb (str_contains U specials_pat (entry r))).
  split.
  - intros r. rewrite andb_true_iff, negb_true_iff, eqb_true_iff.
    split; intros [Ha Hs]; (split; [exact Ha|]).
    + intros kw Hin Hc.
      assert (str_contains U specials_pat (entry r) = true) as Ht
          by (apply specials_contains; eauto).
      congruence.
    + destruct (str_contains U specials_pat (entry r)) eqn:E; [|reflexivity].
      exfalso. apply specials_contains in E. destruct E as (kw & Hin & Hc).
      exact (Hs kw Hin Hc).
  - intros df. unfold apply_filters, drop_specials, drop_animation.
    induction df as [|r df IH]; [reflexivity|]. simpl.
    destruct (Bool.eqb (in_animation_section r) false); simpl.
    + destruct (negb (str_contains U specials_pat (entry r)));
        [f_equal|]; exact IH.
    + exact IH.
Qed.

(** C8.  Filtering never yields more entries than it was given. *)
Theorem filtering_never_grows df :
  List.length (apply_filters U df) <= List.length df.
Proof.
  unfold apply_filters, drop_specials, drop_animation.
  eapply Nat.le_trans; apply filter_length_le.
Qed.

End FilterFacts.

Section ScanFacts.

Variable U : unicode_db.

Lemma scan_total nodes : forall st, exists st', scan U st nodes = Ok st'.
Proof.
  induction nodes as [|nd nodes IH]; intros st; simpl.
  - eauto.
  - unfold scan_step. destruct (name nd); try apply IH.
    destruct (extract_year_total U (get_text nd)) as [[y|] ->]; apply IH.
Qed.

Lemma scan_app a : forall st b,
  scan U st (a ++ b) =
  match scan U st a with
  | Ok st' => scan U st' b
  | Raise e => Raise e
  end.
Proof.
  induction a as [|nd a IH]; intros st b; simpl.
  - reflexivity.
  - destruct (scan_step U st nd); [apply IH | reflexivity].
Qed.

Lemma scan_rows_grow nodes : forall st st',
  scan U st nodes = Ok st' -> exists later, rows st' = rows st ++ later.
Proof.
  induction nodes as [|nd nodes IH]; intros st st' H; simpl in H.
  - injection H as <-. exists []. symmetry. apply app_nil_r.
  - destruct (scan_step U st nd) as [st1|] eqn:E; [|discriminate].
    apply IH in H. destruct H as (later & ->).
    unfold scan_step in E.
    destruct (name nd);
      try (injection E as <-; simpl; eauto).
    destruct (extract_year U (get_text nd)) as [[y|]|]; try discriminate;
      injection E as <-; simpl; eauto.
    rewrite <- app_assoc. eauto.
Qed.

(** The loop's flag after visiting [pre], started with flag [b0]. *)
Lemma scan_flag pre : forall st st',
  scan U st pre = Ok st' ->
  in_animation st' =
  match find is_heading (rev pre) with
  | Some h => anim_heading U (get_text h)
  | None => in_animation st
  end.
Proof.
  induction pre as [|nd pre IH] using rev_ind; intros st st' H.
  - simpl in H. injection H as <-. reflexivity.
  - rewrite scan_app in H.
    destruct (scan U st pre) as [st1|] eqn:E1; [|discriminate].
    rewrite rev_app_distr. simpl rev. simpl app. cbn [find].
    simpl in H. destruct (scan_step U st1 nd) as [st2|] eqn:E2; [|discriminate].
    injection H as <-.
    pose proof (IH st _ E1) as IH1.
    unfold scan_step in E2.
    replace (is_heading nd)
      with (match name nd with li => false | _ => true end) by reflexivity.
    destruct (name nd);
      try (injection E2 as <-; reflexivity).
    rewrite <- IH1.
    destruct (extract_year U (get_text nd)) as [[y|]|]; try discriminate;
      injection E2 as <-; reflexivity.
Qed.

(** C2.  When the loop reaches a list item, its flag is true exactly if
    the last heading visited before the item carries "animation" or
    "animated" as a whole word, ignoring case (so it is false if no
    heading came before, and an earlier heading does not count once a
    later one was visited); the row the item contributes, if it has a
    year, is recorded with that flag. *)
Theorem in_animation_follows_last_heading pre t post :
  exists st_pre st_end later,
    scan U scan_init pre = Ok st_pre /\
    scan U scan_init (pre ++ {| name := li; get_text := t |} :: post)
      = Ok st_end /\
    rows st_end
      = rows st_pre ++ item_rows U (in_animation st_pre) t ++ later /\
    (in_animation st_pre = true <->
     exists h, last_heading pre = Some h /\ anim_titled U (get_text h)).
Proof.
  destruct (scan_total pre scan_init) as [st_pre Hpre].
  assert (in_animation st_pre = true <->
          exists h, last_heading pre = Some h /\ anim_titled U (get_text h))
    as Hf.
  { rewrite (scan_flag pre _ Hpre). unfold last_heading.
    destruct (find is_heading (rev pre)) as [h|].
    - rewrite anim_heading_spec. split.
      + intros H. exists h. auto.
      + intros (h' & E & H). injection E as <-. exact H.
    - simpl. split; [discriminate|]. intros (h & E & _). discriminate. }
  rewrite scan_app, Hpre. simpl.
  unfold item_rows, scan_step. cbn [name get_text].
  destruct (extract_year_total U t) as [[y|] Hy]; rewrite Hy;
    match goal with
    | |- context [scan U ?s post] =>
        destruct (scan_total post s) as [st_end Hend];
        destruct (scan_rows_grow _ _ Hend) as [later Hl]
    end;
    exists st_pre, st_end, later; rewrite Hend;
    (split; [reflexivity|]); (split; [reflexivity|]); (split; [|exact Hf]).
  - rewrite Hl. simpl. rewrite <- app_assoc. reflexivity.
  - exact Hl.
Qed.

End ScanFacts.

Section CountFacts.

Lemma bump_keys_above k y t :
  (k < y)%Z -> Forall (key_lt (k, 0)) t ->
  Forall (fun b : Z * nat => (k < fst b)%Z) (bump y t).
Proof.
  intros Hy. induction t as [|[k' c'] t IH]; intros H; simpl.
  - repeat constructor. exact Hy.
  - inversion H; subst.
    destruct (y <? k')%Z; [|destruct (y =? k')%Z].
    + constructor; [exact Hy | exact H].
    + constructor; assumption.
    + constructor; [assumption | apply IH; assumption].
Qed.

Lemma bump_sorted y t :
  StronglySorted key_lt t -> StronglySorted key_lt (bump y t).
Proof.
  induction t as [|[k c] t IH]; intros H; simpl.
  - repeat constructor.
  - inversion H; subst.
    destruct (y <? k)%Z eqn:E1; [|destruct (y =? k)%Z eqn:E2].
    + apply Z.ltb_lt in E1. constructor; [exact H|].
      constructor; [exact E1|].
      eapply Forall_impl; [|eassumption].
      intros [k2 c2]. unfold key_lt. simpl. lia.
    + constructor; assumption.
    + apply Z.ltb_ge in E1. apply Z.eqb_neq in E2.
      constructor; [apply IH; assumption|].
      apply (@bump_keys_above k); [lia|]. assumption.
Qed.


Lemma bump_count y0 t y :
  line_count (bump y0 t) y = line_count t y + (if (y0 =? y)%Z then 1 else 0).
Proof.
  unfold line_count. induction t as [|[k c] t IH]; simpl.
  - destruct (y0 =? y)%Z; reflexivity.
  - destruct (y0 <? k)%Z eqn:E1; [|destruct (y0 =? k)%Z eqn:E2]; simpl.
    + destruct (y0 =? y)%Z, (k =? y)%Z; simpl; lia.
    + apply Z.eqb_eq in E2. subst k.
      destruct (y0 =? y)%Z; simpl; lia.
    + apply Z.eqb_neq in E2.
      destruct (k =? y)%Z eqn:E3; simpl; rewrite IH; [|reflexivity].
      apply Z.eqb_eq in E3. subst k. lia.
Qed.

Lemma bump_positive y t :
  Forall (fun e : Z * nat => 0 < snd e) t ->
  Forall (fun e : Z * nat => 0 < snd e) (bump y t).
Proof.
  induction t as [|[k c] t IH]; intros H; simpl.
  - repeat constructor.
  - inversion H; subst.
    destruct (y <? k)%Z; [|destruct (y =? k)%Z].
    + constructor; [simpl; lia | exact H].
    + constructor; [simpl; lia | assumption].
    + constructor; [assumption | apply IH; assumption].
Qed.

Lemma groupby_size_inv df : forall t,
  StronglySorted key_lt t ->
  Forall (fun e : Z * nat => 0 < snd e) t ->
  let t' := fold_left (fun t r => bump (year r) t) df t in
  StronglySorted key_lt t' /\
  Forall (fun e : Z * nat => 0 < snd e) t' /\
  forall y, line_count t' y = line_count t y + count_year y df.
Proof.
  induction df as [|r df IH]; intros t Hs Hp; simpl.
  - repeat split; auto.
  - destruct (IH (bump (year r) t) (bump_sorted _ Hs) (bump_positive _ Hp))
      as (Hs' & Hp' & Hc).
    repeat split; auto.
    intros y. rewrite Hc, bump_count. unfold count_year. simpl.
    destruct (year r =? y)%Z; simpl; lia.
Qed.

Lemma sorted_keys_nodup t :
  StronglySorted key_lt t -> NoDup (map fst t).
Proof.
  induction 1 as [|e t Hs IH Hall]; simpl; constructor; auto.
  intros Hin. apply in_map_iff in Hin. destruct Hin as (e' & E & Hin).
  rewrite Forall_forall in Hall. specialize (Hall _ Hin).
  unfold key_lt in Hall. lia.
Qed.

Lemma line_count_absent t y :
  ~ In y (map fst t) -> line_count t y = 0.
Proof.
  unfold line_count. induction t as [|[k c] t IH]; intros H; simpl; auto.
  destruct (k =? y)%Z eqn:E.
  - apply Z.eqb_eq in E. subst. exfalso. apply H. simpl. auto.
  - apply IH. intros Hin. apply H. simpl. auto.
Qed.

Lemma line_count_present t y c :
  NoDup (map fst t) -> In (y, c) t -> line_count t y = c.
Proof.
  induction t as [|[k c'] t IH]; intros Hn Hin; [destruct Hin|].
  simpl in Hn. inversion Hn as [|? ? Hk Hn']; subst.
  destruct Hin as [E|Hin].
  - injection E as -> ->. unfold line_count. simpl. rewrite Z.eqb_refl. simpl.
    fold (line_count t y). rewrite line_count_absent by assumption. lia.
  - unfold line_count. simpl. destruct (k =? y)%Z eqn:E.
    + apply Z.eqb_eq in E. subst. exfalso. apply Hk.
      apply in_map_iff. exists (y, c). auto.
    + apply IH; assumption.
Qed.

Lemma line_count_in t y c :
  NoDup (map fst t) -> Forall (fun e : Z * nat => 0 < snd e) t ->
  (In (y, c) t <-> c = line_count t y /\ 0 < c).
Proof.
  intros Hn Hp. split.
  - intros Hin. split; [symmetry; apply line_count_present; assumption|].
    rewrite Forall_forall in Hp. exact (Hp _ Hin).
  - intros [-> Hpos].
    destruct (in_dec Z.eq_dec y (map fst t)) as [Hin|Hout].
    + apply in_map_iff in Hin. destruct Hin as ([k c] & E & Hin).
      simpl in E. subst k.
      rewrite (line_count_present _ _ _ Hn Hin). exact Hin.
    + rewrite line_count_absent in Hpos by assumption. lia.
Qed.

Lemma groupby_size_spec df :
  StronglySorted key_lt (groupby_size df) /\
  forall y c, In (y, c) (groupby_size df) <-> c = count_year y df /\ 0 < c.
Proof.
  destruct (@groupby_size_inv df [] (SSorted_nil _) (Forall_nil _))
    as (Hs & Hp & Hc).
  split; [exact Hs|]. intros y c.
  unfold groupby_size.
  rewrite (line_count_in _ _ (sorted_keys_nodup Hs) Hp), Hc. reflexivity.
Qed.


Lemma insert_desc_perm e t : Permutation (e :: t) (insert_desc e t).
Proof.
  induction t as [|e' t IH]; simpl.
  - apply Permutation_refl.
  - destruct (snd e' <=? snd e).
    + apply Permutation_refl.
    + eapply perm_trans; [apply perm_swap|]. apply perm_skip. exact IH.
Qed.

Lemma insert_desc_sorted e t :
  StronglySorted by_count_desc t -> StronglySorted by_count_desc (insert_desc e t).
Proof.
  induction t as [|e' t IH]; intros H; simpl.
  - repeat constructor.
  - inversion H as [|? ? Hs Hall]; subst.
    destruct (snd e' <=? snd e) eqn:E.
    + apply Nat.leb_le in E. constructor; [exact H|].
      constructor; [exact E|].
      eapply Forall_impl; [|exact Hall].
      intros b Hb. unfold by_count_desc in *. lia.
    + apply Nat.leb_gt in E. constructor; [apply IH; exact Hs|].
      eapply Permutation_Forall; [apply insert_desc_perm|].
      constructor; [unfold by_count_desc; lia | exact Hall].
Qed.

Lemma insertion_sort_perm t : Permutation t (fold_right insert_desc [] t).
Proof.
  induction t as [|e t IH]; simpl; [constructor|].
  eapply perm_trans; [apply perm_skip; exact IH | apply insert_desc_perm].
Qed.

Lemma insertion_sort_sorted t :
  StronglySorted by_count_desc (fold_right insert_desc [] t).
Proof.
  induction t as [|e t IH]; simpl; [constructor|].
  apply insert_desc_sorted. exact IH.
Qed.

Lemma sort_desc_stable_perm t : Permutation t (sort_desc_stable t).
Proof. apply insertion_sort_perm. Qed.

Lemma sort_desc_stable_sorted t : StronglySorted by_count_desc (sort_desc_stable t).
Proof. apply insertion_sort_sorted. Qed.

Lemma sort_desc_reversing_perm t : Permutation t (sort_desc_reversing t).
Proof.
  unfold sort_desc_reversing.
  eapply perm_trans; [apply Permutation_rev | apply insertion_sort_perm].
Qed.

Lemma sort_desc_reversing_sorted t :
  StronglySorted by_count_desc (sort_desc_reversing t).
Proof. apply insertion_sort_sorted. Qed.


End CountFacts.

Section Run.

Variable U : unicode_db.
Variable sort_values_desc : list (Z * nat) -> list (Z * nat).

Hypothesis sort_values_perm :
  forall t, Permutation t (sort_values_desc t).
Hypothesis sort_values_sorted :
  forall t, StronglySorted by_count_desc (sort_values_desc t).

Lemma sort_values_nil : sort_values_desc [] = [].
Proof. apply Permutation_nil. apply sort_values_perm. Qed.

Lemma scenario_orders l :
  Permutation [(1999%Z, 3); (2006%Z, 5); (2010%Z, 5)] l ->
  StronglySorted by_count_desc l ->
  l = [(2006%Z, 5); (2010%Z, 5); (1999%Z, 3)] \/
  l = [(2010%Z, 5); (2006%Z, 5); (1999%Z, 3)].
Proof.
  intros Hp Hs.
  pose proof (Permutation_length Hp) as Hl.
  destruct l as [|x [|y [|z [|w l]]]]; try discriminate.
  assert (NoDup [x; y; z]) as Hn.
  { eapply Permutation_NoDup; [exact Hp|].
    repeat constructor; simpl; intuition discriminate. }
  assert (In x [(1999%Z, 3); (2006%Z, 5); (2010%Z, 5)]) as Hx
      by (eapply Permutation_in; [apply Permutation_sym; exact Hp | simpl; auto]).
  assert (In y [(1999%Z, 3); (2006%Z, 5); (2010%Z, 5)]) as Hy
      by (eapply Permutation_in; [apply Permutation_sym; exact Hp | simpl; auto]).
  assert (In z [(1999%Z, 3); (2006%Z, 5); (2010%Z, 5)]) as Hz
      by (eapply Permutation_in; [apply Permutation_sym; exact Hp | simpl; auto]).
  inversion Hs as [|? ? Hs1 Hall1]; subst.
  inversion Hs1 as [|? ? Hs2 Hall2]; subst.
  inversion Hall1 as [|? ? Hxy Hall1']; subst.
  inversion Hall1' as [|? ? Hxz _]; subst.
  inversion Hall2 as [|? ? Hyz _]; subst.
  inversion Hn as [|? ? Nx Hn1]; subst.
  inversion Hn1 as [|? ? Ny _]; subst.
  unfold by_count_desc in *.
  simpl in Hx, Hy, Hz, Nx, Ny.
  destruct Hx as [<-|[<-|[<-|[]]]];
  destruct Hy as [<-|[<-|[<-|[]]]];
  destruct Hz as [<-|[<-|[<-|[]]]];
  simpl in *; try lia; try tauto; auto.
Qed.

(** C4.  The year counts hold one line per distinct year of the filtered
    entries, with the number of entries of that year, ordered by count
    descending; the order among equal counts is whatever the sort does.
    For the counts 1999: 3, 2006: 5, 2010: 5 the line for 1999 is last
    and the other two come in either order. *)
Theorem year_counts_descending df :
  (forall y c,
      In (y, c) (year_counts sort_values_desc df) <->
      c = count_year y df /\ 0 < c) /\
  NoDup (map fst (year_counts sort_values_desc df)) /\
  StronglySorted by_count_desc (year_counts sort_values_desc df) /\
  (groupby_size df = [(1999%Z, 3); (2006%Z, 5); (2010%Z, 5)] ->
   year_counts sort_values_desc df = [(2006%Z, 5); (2010%Z, 5); (1999%Z, 3)] \/
   year_counts sort_values_desc df = [(2010%Z, 5); (2006%Z, 5); (1999%Z, 3)]).
Proof.
  unfold year_counts.
  destruct (groupby_size_spec df) as [Hs Hin].
  pose proof (sort_values_perm (groupby_size df)) as Hp.
  split; [|split; [|split]].
  - intros y c. rewrite <- Hin. split; intros H.
    + eapply Permutation_in; [apply Permutation_sym; exact Hp | exact H].
    + eapply Permutation_in; [exact Hp | exact H].
  - eapply Permutation_NoDup; [apply Permutation_map; exact Hp|].
    apply sorted_keys_nodup. exact Hs.
  - apply sort_values_sorted.
  - intros E. apply scenario_orders; [rewrite <- E; exact Hp|].
    apply sort_values_sorted.
Qed.


Ltac run := cbn [bind emit lift ret raise app fst snd].

Ltac run_to_rows e :=
  unfold main; run;
  repeat match goal with
         | H : ?x = _ |- context [?x] => rewrite H; run
         end.

Lemma bind_fst (A B : Type) (m : M A) (k : A -> M B) :
  fst (bind m k) =
  fst m ++ match snd m with Ok a => fst (k a) | Raise _ => [] end.
Proof.
  destruct m as [t [a|ex]]; simpl.
  - destruct (k a); reflexivity.
  - symmetry. apply app_nil_r.
Qed.

(** C5.  A run whose loop captures no row prints the warning, ends
    without an exception and has written the proof file only. *)
Theorem no_rows_ends_quietly e r nodes st :
  requests_get e URL user_agent 30 = Ok r ->
  raise_for_status r = Ok tt ->
  parse_wrapper e (text r) = Some nodes ->
  scan U scan_init nodes = Ok st ->
  rows st = [] ->
  snd (main U sort_values_desc e) = Ok tt /\
  In (Print WarnNoRows) (fst (main U sort_values_desc e)) /\
  files_written (fst (main U sort_values_desc e)) = [proof_file e].
Proof.
  unfold user_agent. intros Hget Hst Hparse Hscan Hrows.
  run_to_rows e.
  split; [reflexivity|]. split; [|reflexivity].
  simpl. tauto.
Qed.

(** C6.  A run that captures rows and loses all of them to the filters
    ends with [IndexError] raised by the look-up of the top year, having
    written the proof file only. *)
Theorem all_rows_filtered_raises e r nodes st :
  requests_get e URL user_agent 30 = Ok r ->
  raise_for_status r = Ok tt ->
  parse_wrapper e (text r) = Some nodes ->
  scan U scan_init nodes = Ok st ->
  rows st <> [] ->
  apply_filters U (rows st) = [] ->
  snd (main U sort_values_desc e) = Raise IndexError /\
  files_written (fst (main U sort_values_desc e)) = [proof_file e].
Proof.
  unfold user_agent. intros Hget Hst Hparse Hscan Hrows Hfilt.
  run_to_rows e.
  destruct (rows st) as [|r0 df] eqn:E; [congruence|].
  run. rewrite ?Hfilt. unfold year_counts.
  change (groupby_size []) with (@nil (Z * nat)).
  rewrite (Permutation_nil (sort_values_perm [])).
  run. split; reflexivity.
Qed.

(** C10.  Every run, whatever its fetch and later stages do, starts with
    the same events, the write of the proof file (working directory and
    script path) among them and no request, and only then sends the
    request; the proof file is the first file of every run. *)
Theorem proof_file_before_network e :
  exists rest,
    fst (main U sort_values_desc e)
      = startup e ++ HttpGet URL user_agent 30 :: rest /\
    In (WriteText (proof_file e) (proof_text e)) (startup e) /\
    existsb is_http (startup e) = false /\
    files_written (fst (main U sort_values_desc e))
      = proof_file e :: files_written rest.
Proof.
  assert (exists rest,
             fst (main U sort_values_desc e)
             = startup e ++ HttpGet URL user_agent 30 :: rest) as [rest E].
  { unfold main.
    do 6 (rewrite bind_fst; cbn [emit fst snd]).
    eexists. reflexivity. }
  exists rest. split; [exact E|]. split; [simpl; tauto|].
  split; [reflexivity|].
  rewrite E. unfold files_written. rewrite flat_map_app. reflexivity.
Qed.

Lemma raise_for_status_error r :
  (400 <= status_code r < 600)%Z -> raise_for_status r = Raise HTTPError.
Proof.
  intros H. unfold raise_for_status.
  destruct (400 <=? status_code r)%Z eqn:E1; [|apply Z.leb_gt in E1; lia].
  destruct (status_code r <? 600)%Z eqn:E2; [|apply Z.ltb_ge in E2; lia].
  reflexivity.
Qed.

Lemma raise_for_status_passes r :
  (status_code r < 400 \/ 600 <= status_code r)%Z ->
  raise_for_status r = Ok tt.
Proof.
  intros H. unfold raise_for_status.
  destruct (400 <=? status_code r)%Z eqn:E1; [|reflexivity].
  destruct (status_code r <? 600)%Z eqn:E2; [|reflexivity].
  apply Z.leb_le in E1. apply Z.ltb_lt in E2. lia.
Qed.

(** C9, as the code has it.  Every run sends exactly one GET, with the
    User-Agent header and a timeout of 30.  When the response carries a
    4xx or 5xx status the run ends there with [HTTPError].  A response
    with any other status is not rejected: the run prints the download
    size and hands the body to the parser, ending with [RuntimeError] if
    the wrapper is missing and running the loop over its nodes
    otherwise, and it never ends with [HTTPError]. *)
Theorem http_error_status_aborts e :
  filter is_http (fst (main U sort_values_desc e))
    = [HttpGet URL user_agent 30] /\
  (forall r,
      requests_get e URL user_agent 30 = Ok r ->
      (400 <= status_code r < 600)%Z ->
      main U sort_values_desc e
        = (startup e ++ [HttpGet URL user_agent 30], Raise HTTPError)) /\
  (forall r,
      requests_get e URL user_agent 30 = Ok r ->
      (status_code r < 400 \/ 600 <= status_code r)%Z ->
      (exists rest,
          fst (main U sort_values_desc e)
          = startup e ++ HttpGet URL user_agent 30
              :: Print (OkDownloaded (List.length (text r))) :: rest) /\
      snd (main U sort_values_desc e) <> Raise HTTPError /\
      (parse_wrapper e (text r) = None ->
       snd (main U sort_values_desc e) = Raise RuntimeError) /\
      (forall nodes,
          parse_wrapper e (text r) = Some nodes ->
          exists st,
            scan U scan_init nodes = Ok st /\
            In (Print (InfoRowsCaptured (List.length (rows st))))
               (fst (main U sort_values_desc e)))).
Proof.
  split; [|split].
  - unfold main, user_agent. run.
    destruct (requests_get e URL _ 30) as [r|ex]; run; [|reflexivity].
    destruct (raise_for_status r) as [[]|ex]; run; [|reflexivity].
    destruct (parse_wrapper e (text r)) as [nodes|]; run; [|reflexivity].
    destruct (scan U scan_init nodes) as [st|ex]; run; [|reflexivity].
    destruct (rows st) as [|r0 df]; run; [reflexivity|].
    destruct (year_counts sort_values_desc (apply_filters U (r0 :: df)))
      as [|[y c] counts]; run; reflexivity.
  - unfold user_agent. intros r Hget Hst.
    apply raise_for_status_error in Hst.
    unfold main. run. rewrite Hget. run. rewrite Hst. run. reflexivity.
  - unfold user_agent. intros r Hget Hst.
    apply raise_for_status_passes in Hst.
    unfold main. run. rewrite Hget. run. rewrite Hst. run.
    destruct (parse_wrapper e (text r)) as [nodes|]; run.
    + destruct (scan_total U nodes scan_init) as [st Hsc]. rewrite Hsc. run.
      assert (forall nodes0 : list node,
                 Some nodes = Some nodes0 ->
                 scan U scan_init nodes0 = Ok st) as Hn
          by (intros nodes0 E; injection E as <-; exact Hsc).
      destruct (rows st) as [|r0 df] eqn:Er; run.
      * split; [eexists; reflexivity|]. split; [discriminate|].
        split; [discriminate|].
        intros nodes0 E. exists st. split; [exact (Hn _ E)|].
        rewrite Er. simpl. tauto.
      * destruct (year_counts sort_values_desc (apply_filters U (r0 :: df)))
          as [|[y c] counts]; run;
          (split; [eexists; reflexivity|]); (split; [discriminate|]);
          (split; [discriminate|]);
          intros nodes0 E; exists st; (split; [exact (Hn _ E)|]);
          rewrite Er; simpl; tauto.
    + split; [eexists; reflexivity|]. split; [discriminate|].
      split; [reflexivity|]. discriminate.
Qed.


End Run.

(** ** Deciding the side conditions on concrete texts *)

Section Checks.

Variable U : unicode_db.

Lemma upto_rparen_spec body : forall post,
  ~ In rp body -> upto_rparen (body ++ rp :: post) = Some (body, post).
Proof.
  induction body as [|c body IH]; intros post Hn; cbn [upto_rparen app].
  - rewrite N.eqb_refl. reflexivity.
  - destruct (c =? rp)%N eqn:E.
    + apply N.eqb_eq in E. exfalso. apply Hn. left. exact E.
    + rewrite IH; [reflexivity|]. intros Hin. apply Hn. right. exact Hin.
Qed.

Lemma no_dated_paren_before_sound n : forall text,
  no_dated_paren_before U n text = true ->
  forall pre body post,
    paren_at text pre body post -> List.length pre < n ->
    ~ has_year_token U body.
Proof.
  induction n as [|n IH]; intros text H pre body post [E Hn] Hl Ht; [lia|].
  destruct pre as [|c pre]; cbn [app] in E; subst text;
    cbn [no_dated_paren_before] in H.
  - rewrite N.eqb_refl, (@upto_rparen_spec body post Hn) in H.
    destruct (first_token U body) eqn:Ef; [discriminate|].
    apply first_token_none in Ef. exact (Ef Ht).
  - apply andb_prop in H. destruct H as [_ H].
    apply (IH _ H pre body post); [split; [reflexivity | exact Hn]| |exact Ht].
    simpl in Hl. lia.
Qed.

End Checks.

(** ** The theorems at concrete inputs *)

Lemma extract_year_parenthetical_first_witness :
  extract_year ascii_db episode_text = Ok (Some 2006%Z).
Proof.
  refine (proj1 (@extract_year_parenthetical_first ascii_db episode_text
                   (lit "Episode X ")
                   (lit "aired December 17, 2006")
                   (lit " was the first of the season, premiered 1998")
                   (lit "aired December 17, ") (lit "2006") [] _ _ _ _)).
  - split; [reflexivity | vm_compute; intuition discriminate].
  - reflexivity.
  - assert (first_token ascii_db (lit "aired December 17, 2006")
            = Some (lit "aired December 17, ", lit "2006", [])) as H
        by (vm_compute; reflexivity).
    apply first_token_some in H. apply H.
  - intros pre' body' post' Hp Hl.
    eapply (@no_dated_paren_before_sound ascii_db); [|exact Hp|exact Hl].
    vm_compute. reflexivity.
Defined.

(** A year that stands in a parenthesized substring behind a closed inner
    parenthetical gets no precedence: the pattern's run of characters
    cannot cross the inner right parenthesis, no parenthetical holds the
    year, and the year outside is returned. *)
Lemma nested_parenthetical_is_not_preferred :
  parenthesized nested_text
    (lit "Premiered 1998 ") (lit "aired (on NBC) December 17, 2006") [] /\
  first_year_token ascii_db
    (lit "aired (on NBC) December 17, ") (lit "2006") [] /\
  nested_text
    = lit "Premiered " ++ lit "1998"
        ++ lit " (aired (on NBC) December 17, 2006)" /\
  year_token ascii_db
    (lit "Premiered ") (lit "1998")
    (lit " (aired (on NBC) December 17, 2006)") /\
  year_of_token ascii_db (lit "2006") = 2006%Z /\
  extract_year ascii_db nested_text = Ok (Some 1998%Z) /\
  extract_year ascii_db nested_text <> Ok (Some 2006%Z).
Proof.
  split; [split; reflexivity|].
  split.
  { assert (first_token ascii_db (lit "aired (on NBC) December 17, 2006")
            = Some (lit "aired (on NBC) December 17, ", lit "2006", [])) as H
        by (vm_compute; reflexivity).
    apply first_token_some in H. apply H. }
  split; [reflexivity|].
  split; [repeat split; vm_compute; reflexivity|].
  split; [vm_compute; reflexivity|].
  split; [vm_compute; reflexivity | vm_compute; discriminate].
Qed.

Lemma extract_year_no_token_witness :
  extract_year ascii_db (lit "no date, 12006 x2006 2006th") = Ok None.
Proof.
  refine (proj1 (@extract_year_no_token ascii_db _ _)).
  apply first_token_none. vm_compute. reflexivity.
Defined.

Lemma year_counts_descending_witness :
  NoDup (map fst (year_counts sort_desc_stable sample_rows)) /\
  StronglySorted by_count_desc (year_counts sort_desc_stable sample_rows).
Proof.
  destruct (@year_counts_descending sort_desc_stable
              sort_desc_stable_perm sort_desc_stable_sorted sample_rows)
    as (_ & Hn & Hs & _).
  split; assumption.
Defined.

Lemma no_rows_ends_quietly_witness :
  snd (main ascii_db sort_desc_stable
         (sample_env 200 (Some [{| name := li; get_text := lit "no date" |}])))
  = Ok tt.
Proof.
  refine (proj1 (@no_rows_ends_quietly ascii_db sort_desc_stable
                   (sample_env 200 (Some [{| name := li; get_text := lit "no date" |}]))
                   {| status_code := 200; text := lit "<html></html>" |}
                   [{| name := li; get_text := lit "no date" |}]
                   {| rows := []; in_animation := false;
                      total_li := 1; li_with_year := 0 |}
                   _ _ _ _ _)); vm_compute; reflexivity.
Defined.

Lemma all_rows_filtered_raises_witness :
  snd (main ascii_db sort_desc_stable (sample_env 200 (Some sample_page)))
  = Raise IndexError.
Proof.
  refine (proj1 (@all_rows_filtered_raises ascii_db sort_desc_stable
                   sort_desc_stable_perm
                   (sample_env 200 (Some sample_page))
                   {| status_code := 200; text := lit "<html></html>" |}
                   sample_page
                   {| rows :=
                        [{| year := 1971; in_animation_section := true;
                            entry := lit "A Christmas Carol (1971)" |};
                         {| year := 2005; in_animation_section := false;
                            entry := lit "Holiday Special (2005)" |}];
                      in_animation := false;
                      total_li := 2; li_with_year := 2 |}
                   _ _ _ _ _ _));
    try (vm_compute; reflexivity).
  discriminate.
Defined.

Lemma http_error_status_aborts_witness :
  main ascii_db sort_desc_stable (sample_env 404 (Some sample_page))
  = (startup (sample_env 404 (Some sample_page))
       ++ [HttpGet URL user_agent 30],
     Raise HTTPError) /\
  snd (main ascii_db sort_desc_stable not_modified_env) = Raise RuntimeError.
Proof.
  split.
  - refine (proj1 (proj2 (@http_error_status_aborts ascii_db sort_desc_stable
                            (sample_env 404 (Some sample_page))))
                  {| status_code := 404; text := lit "<html></html>" |} _ _).
    + reflexivity.
    + simpl. lia.
  - refine (proj1 (proj2 (proj2
             (proj2 (proj2 (@http_error_status_aborts ascii_db sort_desc_stable
                              not_modified_env))
                    {| status_code := 304; text := [] |} _ _))) _).
    + reflexivity.
    + left. simpl. lia.
    + reflexivity.
Defined.

(** A response with status 304 is outside 2xx, yet [raise_for_status]
    lets it through: the run goes on to report the download and to parse
    the (empty) body, and it is the missing wrapper that ends it. *)
Lemma status_304_is_not_raised :
  requests_get not_modified_env URL user_agent 30
    = Ok {| status_code := 304; text := [] |} /\
  ~ (200 <= 304 < 300)%Z /\
  main ascii_db sort_desc_stable not_modified_env
    = (startup not_modified_env
         ++ [HttpGet URL user_agent 30; Print (OkDownloaded 0)],
       Raise RuntimeError) /\
  snd (main ascii_db sort_desc_stable not_modified_env) <> Raise HTTPError.
Proof.
  split; [reflexivity|]. split; [lia|].
  split; [vm_compute; reflexivity | vm_compute; discriminate].
Qed.

(** The specification's scenarios, run on the model. *)
Example scenario_sections :
  scan ascii_db scan_init sample_page =
  Ok {| rows :=
          [{| year := 1971; in_animation_section := true;
              entry := lit "A Christmas Carol (1971)" |};
           {| year := 2005; in_animation_section := false;
              entry := lit "Holiday Special (2005)" |}];
        in_animation := false; total_li := 2; li_with_year := 2 |}.
Proof. vm_compute. reflexivity. Qed.

Example scenario_special_dropped :
  apply_filters ascii_db
    [{| year := 1971; in_animation_section := true;
        entry := lit "A Christmas Carol (1971)" |};
     {| year := 2005; in_animation_section := false;
        entry := lit "Holiday Special (2005)" |}] = [].
Proof. vm_compute. reflexivity. Qed.

Example scenario_earlier_plain_parenthetical :
  extract_year ascii_db (lit "Show (pilot), aired (May 3, 2006) in 1998")
  = Ok (Some 2006%Z).
Proof. vm_compute. reflexivity. Qed.

Example scenario_tie_orders :
  sort_desc_stable [(1999%Z, 3); (2006%Z, 5); (2010%Z, 5)]
    = [(2006%Z, 5); (2010%Z, 5); (1999%Z, 3)] /\
  sort_desc_reversing [(1999%Z, 3); (2006%Z, 5); (2010%Z, 5)]
    = [(2010%Z, 5); (2006%Z, 5); (1999%Z, 3)].
Proof. split; reflexivity. Qed.

(** ** More about [extract_year] *)

Section YearMore.

Variable U : unicode_db.

Lemma no_dated_paren_sound text :
  no_dated_paren_before U (List.length text) text = true ->
  forall pre body post, paren_at text pre body post -> ~ has_year_token U body.
Proof.
  intros H pre body post Hp.
  eapply no_dated_paren_before_sound; [exact H | exact Hp |].
  destruct Hp as [-> _]. rewrite length_app. simpl. lia.
Qed.

(** Without a dated parenthetical the result is the fallback search. *)
Lemma extract_year_without_dated_paren text :
  (forall pre body post, paren_at text pre body post -> ~ has_year_token U body) ->
  extract_year U text = Ok (year_in U text).
Proof.
  intros Hno. rewrite extract_year_phases.
  destruct (re_search U DATE_PARENS_RE text) as [g|] eqn:Es; [|reflexivity].
  exfalso. apply date_search_some in Es.
  destruct Es as (pre & body & post & Hp & Ht & _). exact (Hno _ _ _ Hp Ht).
Qed.

Lemma year_in_first l tok r :
  first_year_token U l tok r ->
  year_in U (l ++ tok ++ r) = Some (year_of_token U tok).
Proof.
  intros Hf. unfold year_in. rewrite (first_token_complete Hf). reflexivity.
Qed.

Lemma year_in_some text y :
  year_in U text = Some y ->
  exists l tok r,
    text = l ++ tok ++ r /\ year_token U l tok r /\ y = year_of_token U tok.
Proof.
  unfold year_in.
  destruct (first_token U text) as [[[l tok] r]|] eqn:E; [|discriminate].
  intros H. injection H as <-. apply first_token_some in E.
  destruct E as [E [Ht _]]. exists l, tok, r. auto.
Qed.

Lemma year_in_none text : year_in U text = None <-> ~ has_year_token U text.
Proof.
  rewrite <- first_token_none. unfold year_in.
  destruct (first_token U text) as [[[l tok] r]|]; split; congruence.
Qed.

(** Whatever [extract_year] returns was read off a year token of the text. *)
Lemma extract_year_some_inv text y :
  extract_year U text = Ok (Some y) ->
  exists l tok r,
    text = l ++ tok ++ r /\ year_token U l tok r /\ y = year_of_token U tok.
Proof.
  rewrite extract_year_phases.
  destruct (re_search U DATE_PARENS_RE text) as [g|] eqn:Es.
  - apply date_search_some in Es.
    destruct Es as (pre & body & post & Hp & Ht & -> & _).
    destruct (year_in U body) as [y'|] eqn:Ey.
    + intros H. injection H as <-. apply year_in_some in Ey.
      destruct Ey as (l & tok & r & -> & (Hs & Hb & Ha) & ->).
      destruct Hp as [-> _].
      exists (pre ++ lp :: l), tok, (r ++ rp :: post). split.
      * repeat (rewrite <- ?app_assoc; simpl). reflexivity.
      * split; [|reflexivity]. split; [exact Hs|].
        rewrite word_at_end_lp, word_at_start_rp. auto.
    + intros H. injection H as H. apply year_in_some. exact H.
  - intros H. injection H as H. apply year_in_some. exact H.
Qed.

(** X1.  Without a parenthetical that holds a year token, [extract_year]
    returns the leftmost year token of the whole text. *)
Theorem extract_year_fallback text l tok r :
  text = l ++ tok ++ r ->
  first_year_token U l tok r ->
  (forall pre body post,
      paren_at text pre body post -> ~ has_year_token U body) ->
  extract_year U text = Ok (Some (year_of_token U tok)).
Proof.
  intros -> Hf Hno.
  rewrite (extract_year_without_dated_paren Hno).
  rewrite (year_in_first Hf). reflexivity.
Qed.

(** X2.  [extract_year] never raises, and it returns a year exactly when
    the text holds a year token. *)
Theorem extract_year_finds_year_iff_present text :
  (exists o, extract_year U text = Ok o) /\
  ((exists y, extract_year U text = Ok (Some y)) <-> has_year_token U text).
Proof.
  split; [apply extract_year_total|]. split.
  - intros (y & H). apply extract_year_some_inv in H.
    destruct H as (l & tok & r & E & Ht & _). exists l, tok, r. auto.
  - intros Ht. rewrite extract_year_phases.
    assert (exists y, year_in U text = Some y) as [y Hy].
    { destruct (year_in U text) as [y|] eqn:E; [eauto|].
      apply year_in_none in E. contradiction. }
    destruct (re_search U DATE_PARENS_RE text) as [g|]; [|rewrite Hy; eauto].
    destruct (year_in U (re_group text g 1)); [eauto | rewrite Hy; eauto].
Qed.

(** X3.  A year returned by [extract_year] is the number of a year token
    that stands in the text. *)
Theorem extract_year_returns_a_written_year text y :
  extract_year U text = Ok (Some y) ->
  exists l tok r,
    text = l ++ tok ++ r /\ year_token U l tok r /\ y = year_of_token U tok.
Proof. apply extract_year_some_inv. Qed.

Lemma digit_of_range c :
  decimal_values_ok U -> is_digit U c = true -> (0 <= digit_of U c <= 9)%Z.
Proof.
  intros Hok. unfold is_digit, digit_of, digit_value, ascii_digit.
  destruct (is_ascii c).
  - intros H. rewrite H. apply andb_prop in H. destruct H as [H1 H2].
    apply N.leb_le in H1, H2. lia.
  - destruct (uni_decimal U c) as [v|] eqn:E; [|discriminate].
    intros _. exact (Hok _ _ E).
Qed.

Lemma year_of_token_range tok :
  decimal_values_ok U -> year_shape U tok = true ->
  (1900 <= year_of_token U tok <= 2099)%Z.
Proof.
  intros Hok H.
  destruct (year_shape_inv U tok H) as (a & b & c & d & -> & Hab & Hc & Hd).
  pose proof (digit_of_range c Hok Hc). pose proof (digit_of_range d Hok Hd).
  unfold year_of_token.
  destruct Hab as [[-> ->]|[-> ->]];
    change (digit_of U 49%N) with 1%Z; change (digit_of U 57%N) with 9%Z;
    change (digit_of U 50%N) with 2%Z; change (digit_of U 48%N) with 0%Z; lia.
Qed.

(** X4.  With decimal digits valued 0 to 9, every year [extract_year]
    returns lies between 1900 and 2099. *)
Theorem extract_year_range text y :
  decimal_values_ok U ->
  extract_year U text = Ok (Some y) ->
  (1900 <= y <= 2099)%Z.
Proof.
  intros Hok H. apply extract_year_some_inv in H.
  destruct H as (l & tok & r & _ & (Hs & _) & ->).
  apply year_of_token_range; assumption.
Qed.

(** X5.  A text without any right parenthesis (an unclosed parenthetical
    included) gets the leftmost year token of the whole text. *)
Theorem extract_year_unclosed_parenthesis text l tok r :
  ~ In rp text ->
  text = l ++ tok ++ r ->
  first_year_token U l tok r ->
  extract_year U text = Ok (Some (year_of_token U tok)).
Proof.
  intros Hn -> Hf.
  rewrite extract_year_without_dated_paren, (year_in_first Hf); [reflexivity|].
  intros pre body post [E _] _. apply Hn. rewrite E.
  apply in_or_app. right. right. apply in_or_app. right. left. reflexivity.
Qed.

End YearMore.

(** ** More about the loop *)

Section ScanMore.

Variable U : unicode_db.

(** What one pass adds to the loop's variables. *)
Lemma scan_effect nodes : forall st0 st,
  scan U st0 nodes = Ok st ->
  exists new,
    rows st = rows st0 ++ new /\
    map entry new
      = filter (yields_year U) (map get_text (filter is_li nodes)) /\
    Forall (fun r => extract_year U (entry r) = Ok (Some (year r))) new /\
    li_with_year st = li_with_year st0 + List.length new /\
    total_li st = total_li st0 + List.length (filter is_li nodes).
Proof.
  induction nodes as [|nd nodes IH]; intros st0 st H; simpl in H.
  - injection H as <-. exists []. rewrite app_nil_r. simpl.
    repeat split; auto.
  - destruct (scan_step U st0 nd) as [st1|] eqn:E; [|discriminate].
    apply IH in H. destruct H as (new & Hr & Hm & Hall & Hy & Ht).
    unfold scan_step in E.
    assert (is_li nd = match name nd with li => true | _ => false end) as Hli
        by (unfold is_li, is_heading; destruct (name nd); reflexivity).
    cbn [filter]. rewrite Hli.
    destruct (name nd) eqn:En;
      try (injection E as <-; simpl in *; exists new; repeat split; assumption).
    cbn [negb map filter]. unfold yields_year at 1.
    destruct (extract_year U (get_text nd)) as [[y|]|] eqn:Ey; try discriminate;
      injection E as <-; simpl in *.
    + exists ({| year := y; in_animation_section := in_animation st0;
                 entry := get_text nd |} :: new).
      rewrite Hr, <- app_assoc. simpl. repeat split; auto; try lia.
      f_equal. exact Hm.
    + exists new. repeat split; auto. lia.
Qed.

(** X6.  After the loop, [total_li] is the number of list items visited,
    [li_with_year] is the number of rows, and the rows are no more than
    the list items. *)
Theorem scan_counters nodes :
  exists st,
    scan U scan_init nodes = Ok st /\
    total_li st = List.length (filter is_li nodes) /\
    li_with_year st = List.length (rows st) /\
    List.length (rows st) <= total_li st.
Proof.
  destruct (scan_total U nodes scan_init) as [st H]. exists st.
  destruct (scan_effect _ _ H) as (new & Hr & Hm & _ & Hy & Ht).
  simpl in *. subst new. split; [exact H|].
  split; [exact Ht|]. split; [exact Hy|].
  rewrite Ht, <- (length_map entry), Hm.
  eapply Nat.le_trans; [apply filter_length_le|]. rewrite length_map. lia.
Qed.

(** X7.  The rows are the list items with a year, in document order, each
    with the year [extract_year] gives for its text. *)
Theorem scan_rows_in_document_order nodes :
  exists st,
    scan U scan_init nodes = Ok st /\
    map entry (rows st)
      = filter (yields_year U) (map get_text (filter is_li nodes)) /\
    Forall (fun r => extract_year U (entry r) = Ok (Some (year r))) (rows st).
Proof.
  destruct (scan_total U nodes scan_init) as [st H]. exists st.
  destruct (scan_effect _ _ H) as (new & Hr & Hm & Hall & _).
  simpl in Hr. subst new. auto.
Qed.

Lemma scan_unflagged nodes : forall st0 st,
  (forall nd, In nd nodes -> is_heading nd = true ->
              anim_heading U (get_text nd) = false) ->
  in_animation st0 = false ->
  Forall (fun r => in_animation_section r = false) (rows st0) ->
  scan U st0 nodes = Ok st ->
  Forall (fun r => in_animation_section r = false) (rows st).
Proof.
  induction nodes as [|nd nodes IH]; intros st0 st Hh Hf Hall H; simpl in H.
  - injection H as <-. exact Hall.
  - destruct (scan_step U st0 nd) as [st1|] eqn:E; [|discriminate].
    assert (in_animation st1 = false /\
            Forall (fun r => in_animation_section r = false) (rows st1))
      as [Hf1 Hall1].
    { unfold scan_step in E.
      pose proof (Hh nd (or_introl eq_refl)) as Hnd. unfold is_heading in Hnd.
      destruct (name nd);
        try (injection E as <-; simpl; split; [apply Hnd; reflexivity | exact Hall]).
      destruct (extract_year U (get_text nd)) as [[y|]|]; try discriminate;
        injection E as <-; simpl; split; auto.
      apply Forall_app. split; [exact Hall|]. repeat constructor. exact Hf. }
    apply (IH st1 st); auto. intros nd' Hin. apply Hh. right. exact Hin.
Qed.

(** X8.  If no heading of the page matches the animation pattern, no row
    is flagged and the animation filter keeps every row. *)
Theorem no_animation_heading_no_flagged_row nodes :
  (forall nd, In nd nodes -> is_heading nd = true ->
              anim_heading U (get_text nd) = false) ->
  exists st,
    scan U scan_init nodes = Ok st /\
    Forall (fun r => in_animation_section r = false) (rows st) /\
    drop_animation (rows st) = rows st.
Proof.
  intros Hh. destruct (scan_total U nodes scan_init) as [st H]. exists st.
  assert (Forall (fun r => in_animation_section r = false) (rows st)) as Hall.
  { eapply scan_unflagged; try eassumption; [reflexivity | constructor]. }
  split; [exact H|]. split; [exact Hall|].
  unfold drop_animation. induction Hall as [|r rs Hr _ IH]; [reflexivity|].
  simpl. rewrite Hr. simpl. f_equal. exact IH.
Qed.

(** X9.  The rows captured from a page begin with the rows captured from
    any of its prefixes: what follows a node never changes earlier rows. *)
Theorem scan_earlier_rows_stable a b :
  exists st_a st_ab later,
    scan U scan_init a = Ok st_a /\
    scan U scan_init (a ++ b) = Ok st_ab /\
    rows st_ab = rows st_a ++ later.
Proof.
  destruct (scan_total U a scan_init) as [st_a Ha].
  destruct (scan_total U b st_a) as [st_ab Hb].
  destruct (scan_rows_grow U _ _ Hb) as [later Hl].
  exists st_a, st_ab, later. rewrite scan_app, Ha. auto.
Qed.

End ScanMore.

(** ** More about the filters and the patterns *)

Section FilterMore.

Variable U : unicode_db.

Lemma filter_swap (A : Type) (f g : A -> bool) l :
  filter f (filter g l) = filter g (filter f l).
Proof.
  induction l as [|a l IH]; [reflexivity|]. simpl.
  destruct (g a) eqn:Eg, (f a) eqn:Ef; simpl; rewrite ?Eg, ?Ef, IH; reflexivity.
Qed.

Lemma filter_twice (A : Type) (f : A -> bool) l :
  filter f (filter f l) = filter f l.
Proof.
  induction l as [|a l IH]; [reflexivity|]. simpl.
  destruct (f a) eqn:Ef; simpl; rewrite ?Ef, IH; reflexivity.
Qed.

(** X10.  The two filters commute, filtering twice filters once, and a
    table is filtered row by row. *)
Theorem filters_compose df df' :
  drop_specials U (drop_animation df) = drop_animation (drop_specials U df) /\
  apply_filters U (apply_filters U df) = apply_filters U df /\
  apply_filters U (df ++ df') = apply_filters U df ++ apply_filters U df'.
Proof.
  unfold apply_filters, drop_specials, drop_animation. split; [|split].
  - apply filter_swap.
  - rewrite (filter_swap _ (fun r => Bool.eqb (in_animation_section r) false)).
    rewrite filter_twice.
    rewrite (filter_swap (fun r => Bool.eqb (in_animation_section r) false)).
    rewrite filter_twice. reflexivity.
  - rewrite !filter_app. reflexivity.
Qed.

Lemma upper_facts c :
  ascii_lower c = true ->
  is_ascii c = true /\ ascii_upper c = false /\
  is_ascii (c - 32)%N = true /\ ascii_upper (c - 32)%N = true /\
  ascii_lower (c - 32)%N = false /\ ascii_digit (c - 32)%N = false /\
  ascii_digit c = false /\
  ((c - 32 =? 95) = false /\ (c =? 95) = false /\ (c - 32 + 32 = c))%N.
Proof.
  unfold ascii_lower, ascii_upper, is_ascii, ascii_digit. intros H.
  apply andb_prop in H. destruct H as [H1 H2]. apply N.leb_le in H1, H2.
  assert (forall a b x : N, (x < a \/ b < x -> (a <=? x) && (x <=? b) = false)%N)
    as Hout.
  { intros a b x [Hx|Hx]; apply andb_false_iff;
      [left | right]; apply N.leb_gt; assumption. }
  split; [apply N.ltb_lt; lia|].
  split; [apply Hout; lia|].
  split; [apply N.ltb_lt; lia|].
  split; [apply andb_true_iff; split; apply N.leb_le; lia|].
  split; [apply Hout; lia|].
  split; [apply Hout; lia|].
  split; [apply Hout; lia|].
  split; [apply N.eqb_neq; lia|].
  split; [apply N.eqb_neq; lia | lia].
Qed.

Lemma py_lower_upper c : py_lower U (ascii_to_upper c) = py_lower U c.
Proof.
  unfold ascii_to_upper. destruct (ascii_lower c) eqn:E; [|reflexivity].
  destruct (upper_facts c E) as (Ha & Hu & Ha' & Hu' & _ & _ & _ & _ & _ & Hc).
  unfold py_lower. rewrite Ha, Hu, Ha', Hu', Hc. reflexivity.
Qed.

Lemma is_word_upper c : is_word U (ascii_to_upper c) = is_word U c.
Proof.
  unfold ascii_to_upper. destruct (ascii_lower c) eqn:E; [|reflexivity].
  destruct (upper_facts c E) as (Ha & Hu & Ha' & Hu' & Hl' & Hd' & Hd & H95' & H95 & _).
  unfold is_word. rewrite Ha, Ha', Hu, Hu', Hl', Hd', Hd, E, H95', H95.
  reflexivity.
Qed.

Lemma ci_char_upper kc c : ci_char U kc (ascii_to_upper c) = ci_char U kc c.
Proof.
  rewrite !ci_char_matches.
  unfold literal_i. destruct (iscased kc) eqn:Ek; cbn [cc_match].
  - rewrite py_lower_upper. reflexivity.
  - unfold ascii_to_upper. destruct (ascii_lower c) eqn:E; [|reflexivity].
    destruct (upper_facts c E) as (_ & _ & _ & Hu' & _).
    unfold iscased in Ek. apply orb_false_iff in Ek. destruct Ek as [Ek1 Ek2].
    assert ((c - 32 =? kc)%N = false) as ->.
    { apply N.eqb_neq. intros <-. congruence. }
    symmetry. apply N.eqb_neq. intros <-. congruence.
Qed.

Lemma ci_word_upper kw w :
  ci_word U kw (map ascii_to_upper w) <-> ci_word U kw w.
Proof.
  unfold ci_word. generalize (lit kw). intros k. revert w.
  induction k as [|kc k IH]; intros w; split; intros H.
  - destruct w; [constructor | inversion H].
  - inversion H; subst. constructor.
  - destruct w as [|c w]; inversion H; subst. constructor.
    + rewrite <- ci_char_upper. assumption.
    + apply IH. assumption.
  - inversion H; subst. simpl. constructor.
    + rewrite ci_char_upper. assumption.
    + apply IH. assumption.
Qed.

Lemma ci_contains_upper kw s :
  ci_contains U kw (map ascii_to_upper s) <-> ci_contains U kw s.
Proof.
  unfold ci_contains. split.
  - intros (l & mid & r & E & Hw).
    apply map_eq_app in E. destruct E as (l0 & s1 & -> & <- & E).
    apply map_eq_app in E. destruct E as (mid0 & r0 & -> & <- & <-).
    exists l0, mid0, r0. split; [reflexivity|]. apply ci_word_upper. exact Hw.
  - intros (l & mid & r & -> & Hw).
    exists (map ascii_to_upper l), (map ascii_to_upper mid), (map ascii_to_upper r).
    rewrite !map_app. split; [reflexivity|]. apply ci_word_upper. exact Hw.
Qed.

Lemma bool_eq_iff (a b : bool) : (a = true <-> b = true) -> a = b.
Proof. destruct a, b; intros [H1 H2]; auto; try (symmetry; auto); auto. Qed.

(** X11.  Putting the text in capitals does not change whether the
    keyword filter hits it. *)
Theorem specials_filter_ignores_case s :
  str_contains U specials_pat (map ascii_to_upper s)
    = str_contains U specials_pat s.
Proof.
  apply bool_eq_iff. rewrite !specials_contains.
  split; intros (kw & Hin & Hc); exists kw; (split; [exact Hin|]);
    apply ci_contains_upper; exact Hc.
Qed.

Lemma word_at_end_upper l :
  word_at_end U (map ascii_to_upper l) = word_at_end U l.
Proof.
  unfold word_at_end. rewrite <- map_rev.
  destruct (rev l); simpl; [reflexivity | apply is_word_upper].
Qed.

Lemma word_at_start_upper r :
  word_at_start U (map ascii_to_upper r) = word_at_start U r.
Proof. destruct r; simpl; [reflexivity | apply is_word_upper]. Qed.

Lemma anim_titled_upper h :
  anim_titled U (map ascii_to_upper h) <-> anim_titled U h.
Proof.
  unfold anim_titled, boundary. split.
  - intros (l & w & r & E & Hw & Hb1 & Hb2).
    apply map_eq_app in E. destruct E as (l0 & s1 & -> & <- & E).
    apply map_eq_app in E. destruct E as (w0 & r0 & -> & <- & <-).
    exists l0, w0, r0. split; [reflexivity|].
    rewrite <- !map_app in Hb1, Hb2.
    rewrite !word_at_end_upper, !word_at_start_upper in Hb1, Hb2.
    split; [|auto].
    destruct Hw as [Hw|Hw]; [left | right]; apply ci_word_upper; exact Hw.
  - intros (l & w & r & -> & Hw & Hb1 & Hb2).
    exists (map ascii_to_upper l), (map ascii_to_upper w), (map ascii_to_upper r).
    rewrite !map_app. split; [reflexivity|].
    rewrite <- !map_app.
    rewrite !word_at_end_upper, !word_at_start_upper.
    split; [|auto].
    destruct Hw as [Hw|Hw]; [left | right]; apply ci_word_upper; exact Hw.
Qed.

(** X12.  Putting the heading in capitals does not change whether it
    counts as an animation heading. *)
Theorem anim_heading_ignores_case h :
  anim_heading U (map ascii_to_upper h) = anim_heading U h.
Proof.
  apply bool_eq_iff. rewrite !anim_heading_spec. apply anim_titled_upper.
Qed.

End FilterMore.

(** ** More about the counts *)

Section CountMore.

Lemma count_year_perm y df df' :
  Permutation df df' -> count_year y df = count_year y df'.
Proof.
  intros H. unfold count_year. apply Permutation_length.
  induction H; simpl.
  - constructor.
  - destruct (year x =? y)%Z; [apply perm_skip|]; assumption.
  - destruct (year x =? y)%Z, (year y0 =? y)%Z;
      try apply perm_swap; apply Permutation_refl.
  - eapply perm_trans; eassumption.
Qed.

(** Two tables with strictly ascending years and the same lines are the
    same table. *)
Lemma sorted_tables_equal t1 : forall t2,
  StronglySorted key_lt t1 -> StronglySorted key_lt t2 ->
  (forall e, In e t1 <-> In e t2) -> t1 = t2.
Proof.
  induction t1 as [|a t1 IH]; intros t2 H1 H2 Hin.
  - destruct t2 as [|b t2]; [reflexivity|].
    exfalso. apply (proj2 (Hin b)). left. reflexivity.
  - destruct t2 as [|b t2].
    { exfalso. apply (proj1 (Hin a)). left. reflexivity. }
    inversion H1 as [|? ? Hs1 Hall1]; subst.
    inversion H2 as [|? ? Hs2 Hall2]; subst.
    rewrite Forall_forall in Hall1, Hall2. unfold key_lt in Hall1, Hall2.
    assert (a = b) as ->.
    { destruct (proj1 (Hin a) (or_introl eq_refl)) as [E|Ha]; [auto|].
      destruct (proj2 (Hin b) (or_introl eq_refl)) as [E|Hb]; [auto|].
      apply Hall2 in Ha. apply Hall1 in Hb. lia. }
    f_equal. apply IH; auto.
    intros e. split; intros He.
    + destruct (proj1 (Hin e) (or_intror He)) as [<-|H]; [|exact H].
      apply Hall1 in He. lia.
    + destruct (proj2 (Hin e) (or_intror He)) as [<-|H]; [|exact H].
      apply Hall2 in He. lia.
Qed.

(** X13.  The table of counts does not depend on the order of the rows. *)
Theorem groupby_size_ignores_row_order df df' :
  Permutation df df' -> groupby_size df = groupby_size df'.
Proof.
  intros Hp.
  destruct (groupby_size_spec df) as [Hs Hin].
  destruct (groupby_size_spec df') as [Hs' Hin'].
  apply sorted_tables_equal; auto.
  intros [y c]. rewrite Hin, Hin', (count_year_perm y Hp). reflexivity.
Qed.

Lemma bump_total y t :
  list_sum (map snd (bump y t)) = S (list_sum (map snd t)).
Proof.
  induction t as [|[k c] t IH]; simpl; [reflexivity|].
  destruct (y <? k)%Z; [|destruct (y =? k)%Z]; simpl; rewrite ?IH; lia.
Qed.

Lemma groupby_total df : forall t,
  list_sum (map snd (fold_left (fun t r => bump (year r) t) df t))
  = list_sum (map snd t) + List.length df.
Proof.
  induction df as [|r df IH]; intros t; simpl; [lia|].
  rewrite IH, bump_total. lia.
Qed.

(** X14.  The grouped table lists years strictly ascending and its
    counts add up to the number of rows. *)
Theorem groupby_size_accounts_for_every_row df :
  StronglySorted key_lt (groupby_size df) /\
  list_sum (map snd (groupby_size df)) = List.length df.
Proof.
  split; [apply groupby_size_spec|].
  unfold groupby_size. rewrite groupby_total. reflexivity.
Qed.

Lemma insert_by_year_perm e t : Permutation (e :: t) (insert_by_year e t).
Proof.
  induction t as [|e' t IH]; simpl.
  - apply Permutation_refl.
  - destruct (fst e <=? fst e')%Z.
    + apply Permutation_refl.
    + eapply perm_trans; [apply perm_swap|]. apply perm_skip. exact IH.
Qed.

Lemma insert_by_year_sorted e t :
  StronglySorted key_le t -> StronglySorted key_le (insert_by_year e t).
Proof.
  induction t as [|e' t IH]; intros H; simpl.
  - repeat constructor.
  - inversion H as [|? ? Hs Hall]; subst.
    destruct (fst e <=? fst e')%Z eqn:E.
    + apply Z.leb_le in E. constructor; [exact H|].
      constructor; [exact E|].
      eapply Forall_impl; [|exact Hall].
      intros b Hb. unfold key_le in *. lia.
    + apply Z.leb_gt in E. constructor; [apply IH; exact Hs|].
      eapply Permutation_Forall; [apply insert_by_year_perm|].
      constructor; [unfold key_le; lia | exact Hall].
Qed.

Lemma sort_index_perm t : Permutation t (sort_index t).
Proof.
  induction t as [|e t IH]; simpl; [constructor|].
  eapply perm_trans; [apply perm_skip; exact IH | apply insert_by_year_perm].
Qed.

Lemma sort_index_sorted t : StronglySorted key_le (sort_index t).
Proof.
  induction t as [|e t IH]; simpl; [constructor|].
  apply insert_by_year_sorted. exact IH.
Qed.

Lemma sorted_nodup_strict t :
  StronglySorted key_le t -> NoDup (map fst t) -> StronglySorted key_lt t.
Proof.
  induction 1 as [|e t Hs IH Hall]; intros Hn; [constructor|].
  simpl in Hn. inversion Hn as [|? ? Hk Hn']; subst.
  constructor; [apply IH; exact Hn'|].
  rewrite Forall_forall in *. intros b Hb.
  specialize (Hall b Hb). unfold key_le in Hall. unfold key_lt.
  assert (fst e <> fst b).
  { intros E. apply Hk. rewrite E. apply in_map. exact Hb. }
  lia.
Qed.

(** Sorting by year any rearrangement of a table with strictly ascending
    years gives the table back. *)
Lemma sort_index_restores t t' :
  StronglySorted key_lt t -> Permutation t t' -> sort_index t' = t.
Proof.
  intros Hs Hp.
  assert (Permutation t (sort_index t')) as Hp'
      by (eapply perm_trans; [exact Hp | apply sort_index_perm]).
  symmetry. apply sorted_tables_equal; [exact Hs| |].
  - apply sorted_nodup_strict; [apply sort_index_sorted|].
    eapply Permutation_NoDup; [apply Permutation_map; exact Hp'|].
    apply sorted_keys_nodup. exact Hs.
  - intros e. split; apply Permutation_in;
      [exact Hp' | apply Permutation_sym; exact Hp'].
Qed.
Variable sort_values_desc : list (Z * nat) -> list (Z * nat).

Hypothesis sort_values_perm :
  forall t, Permutation t (sort_values_desc t).
Hypothesis sort_values_sorted :
  forall t, StronglySorted by_count_desc (sort_values_desc t).

(** X15.  The bars of the chart are the grouped table, years ascending,
    whatever order the sort gave to equal counts. *)
Theorem chart_bars_ignore_tie_order df :
  sort_index (year_counts sort_values_desc df) = groupby_size df.
Proof.
  apply sort_index_restores; [apply groupby_size_spec | apply sort_values_perm].
Qed.

(** X16.  The first line of the sorted counts, which the run reports as
    the top year, carries a count no year exceeds. *)
Theorem top_year_has_the_largest_count df y c rest :
  year_counts sort_values_desc df = (y, c) :: rest ->
  c = count_year y df /\ 0 < c /\ forall y', count_year y' df <= c.
Proof.
  intros E. unfold year_counts in E.
  destruct (groupby_size_spec df) as [_ Hin].
  pose proof (sort_values_perm (groupby_size df)) as Hp.
  pose proof (sort_values_sorted (groupby_size df)) as Hs.
  rewrite E in Hp, Hs.
  assert (c = count_year y df /\ 0 < c) as [Hc Hpos].
  { apply Hin. eapply Permutation_in; [apply Permutation_sym; exact Hp|].
    left. reflexivity. }
  split; [exact Hc|]. split; [exact Hpos|].
  intros y'. destruct (Nat.eq_dec (count_year y' df) 0) as [->|Hnz]; [lia|].
  assert (In (y', count_year y' df) ((y, c) :: rest)) as Hy.
  { eapply Permutation_in; [exact Hp|]. apply Hin. split; [reflexivity | lia]. }
  destruct Hy as [Ey|Hy]; [injection Ey as _ <-; lia|].
  inversion Hs as [|? ? _ Hall]; subst. rewrite Forall_forall in Hall.
  exact (Hall _ Hy).
Qed.

Lemma groupby_size_nil df : groupby_size df = [] -> df = [].
Proof.
  intros E. unfold groupby_size in E.
  pose proof (groupby_total df []) as Ht. rewrite E in Ht. simpl in Ht.
  destruct df; [reflexivity | discriminate].
Qed.

Lemma year_counts_nil df : year_counts sort_values_desc df = [] -> df = [].
Proof.
  unfold year_counts. intros E. apply groupby_size_nil.
  pose proof (Permutation_length (sort_values_perm (groupby_size df))) as Hl.
  rewrite E in Hl. destruct (groupby_size df); [reflexivity | discriminate].
Qed.

(** X17.  The sorted counts are empty exactly when no row is left. *)
Theorem year_counts_empty_iff_no_rows df :
  year_counts sort_values_desc df = [] <-> df = [].
Proof.
  split; [apply year_counts_nil|].
  intros ->. unfold year_counts.
  apply Permutation_nil. apply sort_values_perm.
Qed.

End CountMore.

(** ** More about a run *)

Section RunMore.

Variable U : unicode_db.
Variable sort_values_desc : list (Z * nat) -> list (Z * nat).

Hypothesis sort_values_perm :
  forall t, Permutation t (sort_values_desc t).

Ltac step := cbn [bind emit lift ret raise app fst snd].

(** X18.  When the request itself raises, the run ends right after it
    with that exception. *)
Theorem transport_failure_aborts e ex :
  requests_get e URL user_agent 30 = Raise ex ->
  main U sort_values_desc e
    = (startup e ++ [HttpGet URL user_agent 30], Raise ex).
Proof.
  unfold user_agent. intros H. unfold main. step. rewrite H. reflexivity.
Qed.

(** X19.  When the content wrapper is not found, the run ends with
    [RuntimeError] right after reporting the download. *)
Theorem missing_wrapper_raises e r :
  requests_get e URL user_agent 30 = Ok r ->
  raise_for_status r = Ok tt ->
  parse_wrapper e (text r) = None ->
  main U sort_values_desc e
    = (startup e ++ [HttpGet URL user_agent 30;
                     Print (OkDownloaded (List.length (text r)))],
       Raise RuntimeError).
Proof.
  unfold user_agent. intros Hg Hs Hp. unfold main. step.
  rewrite Hg. step. rewrite Hs. step. rewrite Hp. reflexivity.
Qed.

Lemma status_passes r :
  (status_code r < 400 \/ 600 <= status_code r)%Z ->
  raise_for_status r = Ok tt.
Proof.
  intros H. unfold raise_for_status.
  destruct (400 <=? status_code r)%Z eqn:E1; [|reflexivity].
  destruct (status_code r <? 600)%Z eqn:E2; [|reflexivity].
  apply Z.leb_le in E1. apply Z.ltb_lt in E2. lia.
Qed.

(** X20.  A response whose status is below 400 or from 600 up is not
    rejected: the run reports the download and never ends with
    [HTTPError]. *)
Theorem other_status_is_not_rejected e r :
  requests_get e URL user_agent 30 = Ok r ->
  (status_code r < 400 \/ 600 <= status_code r)%Z ->
  In (Print (OkDownloaded (List.length (text r))))
     (fst (main U sort_values_desc e)) /\
  snd (main U sort_values_desc e) <> Raise HTTPError.
Proof.
  unfold user_agent. intros Hg Hs. apply status_passes in Hs.
  unfold main. step. rewrite Hg. step. rewrite Hs. step.
  destruct (parse_wrapper e (text r)) as [nodes|]; step;
    [|split; [simpl; tauto | discriminate]].
  destruct (scan_total U nodes scan_init) as [st ->]. step.
  destruct (rows st) as [|r0 df]; step;
    [split; [simpl; tauto | discriminate]|].
  destruct (year_counts sort_values_desc (apply_filters U (r0 :: df)))
    as [|[y c] counts]; step; split; simpl; try tauto; discriminate.
Qed.

(** X21.  When rows survive the filters, the run writes the three tables
    one after the other, and before them the proof file only: first all
    captured rows, then the filtered rows, then the sorted counts.  What
    the run does after the tables is not part of the statement. *)
Theorem surviving_rows_reach_the_tables e r nodes st :
  requests_get e URL user_agent 30 = Ok r ->
  raise_for_status r = Ok tt ->
  parse_wrapper e (text r) = Some nodes ->
  scan U scan_init nodes = Ok st ->
  apply_filters U (rows st) <> [] ->
  exists before after,
    fst (main U sort_values_desc e)
    = before
      ++ [ ToCsv (slash (slash (root e) "data")
                        "wiki_christmas_entries_all.csv")
                 (Entries (rows st));
           ToCsv (slash (slash (root e) "data")
                        "wiki_christmas_entries_filtered.csv")
                 (Entries (apply_filters U (rows st)));
           ToCsv (slash (slash (root e) "data")
                        "wiki_christmas_counts_by_year.csv")
                 (Counts (year_counts sort_values_desc
                            (apply_filters U (rows st)))) ]
      ++ after /\
    files_written before = [proof_file e].
Proof.
  intros Hg Hs Hp Hsc Hne. unfold user_agent in Hg.
  assert (year_counts sort_values_desc (apply_filters U (rows st)) <> [])
    as Hc.
  { intros E. apply Hne.
    exact (year_counts_nil sort_values_desc sort_values_perm _ E). }
  unfold main. step. rewrite Hg. step. rewrite Hs. step. rewrite Hp. step.
  rewrite Hsc. step.
  destruct (rows st) as [|r0 df] eqn:Er; [exfalso; apply Hne; reflexivity|].
  step.
  destruct (year_counts sort_values_desc (apply_filters U (r0 :: df)))
    as [|[y c] counts] eqn:Ec; [congruence|].
  step.
  match goal with
  | |- exists before after, ?t = _ /\ _ =>
      exists (firstn 14 t), (skipn 17 t)
  end.
  split; reflexivity.
Qed.

(** X24.  The two diagnostic counts a run prints, list items with a year
    and rows captured, are the same number. *)
Theorem diagnostic_counts_agree e n m :
  In (Print (InfoLiWithYear n)) (fst (main U sort_values_desc e)) ->
  In (Print (InfoRowsCaptured m)) (fst (main U sort_values_desc e)) ->
  n = m.
Proof.
  unfold main. step.
  destruct (requests_get e URL _ 30) as [r|ex]; step;
    [|simpl; intuition discriminate].
  destruct (raise_for_status r) as [[]|ex]; step;
    [|simpl; intuition discriminate].
  destruct (parse_wrapper e (text r)) as [nodes|]; step;
    [|simpl; intuition discriminate].
  destruct (scan_total U nodes scan_init) as [st Hsc]. rewrite Hsc. step.
  destruct (scan_effect U _ _ Hsc) as (new & Hr & _ & _ & Hy & _).
  simpl in Hr, Hy. subst new.
  assert (forall t,
             In (Print (InfoLiWithYear n))
                (startup e ++ HttpGet URL user_agent 30
                   :: Print (OkDownloaded (List.length (text r)))
                   :: Print (InfoTotalLi (total_li st))
                   :: Print (InfoLiWithYear (li_with_year st))
                   :: Print (InfoRowsCaptured (List.length (rows st))) :: t) ->
             In (Print (InfoRowsCaptured m))
                (startup e ++ HttpGet URL user_agent 30
                   :: Print (OkDownloaded (List.length (text r)))
                   :: Print (InfoTotalLi (total_li st))
                   :: Print (InfoLiWithYear (li_with_year st))
                   :: Print (InfoRowsCaptured (List.length (rows st))) :: t) ->
             Forall (fun ev => forall k, ev <> Print (InfoLiWithYear k) /\
                                        ev <> Print (InfoRowsCaptured k)) t ->
             n = m) as Hmain.
  { intros t H1 H2 Ht. rewrite Forall_forall in Ht.
    simpl in H1, H2.
    assert (n = li_with_year st) as ->.
    { repeat (destruct H1 as [H1|H1]; try discriminate).
      - injection H1 as <-. reflexivity.
      - exfalso. exact (proj1 (Ht _ H1 n) eq_refl). }
    assert (m = List.length (rows st)) as ->.
    { repeat (destruct H2 as [H2|H2]; try discriminate).
      - injection H2 as <-. reflexivity.
      - exfalso. exact (proj2 (Ht _ H2 m) eq_refl). }
    exact Hy. }
  destruct (rows st) as [|r0 df] eqn:Er; step.
  - intros H1 H2. apply (Hmain _ H1 H2).
    repeat constructor; discriminate.
  - destruct (year_counts sort_values_desc (apply_filters U (r0 :: df)))
      as [|[y c] counts]; step;
      intros H1 H2; apply (Hmain _ H1 H2); repeat constructor; discriminate.
Qed.

End RunMore.

(** ** The further properties at concrete inputs *)

Lemma extract_year_fallback_witness :
  extract_year ascii_db (lit "Aired in 1998 (rerun) and again 2006")
  = Ok (Some 1998%Z).
Proof.
  refine (@extract_year_fallback ascii_db
            (lit "Aired in 1998 (rerun) and again 2006")
            (lit "Aired in ") (lit "1998") (lit " (rerun) and again 2006")
            _ _ _).
  - reflexivity.
  - assert (first_token ascii_db (lit "Aired in 1998 (rerun) and again 2006")
            = Some (lit "Aired in ", lit "1998",
                    lit " (rerun) and again 2006")) as H
        by (vm_compute; reflexivity).
    apply first_token_some in H. apply H.
  - apply no_dated_paren_sound. vm_compute. reflexivity.
Defined.

Lemma extract_year_returns_a_written_year_witness :
  exists l tok r,
    episode_text = l ++ tok ++ r /\ year_token ascii_db l tok r /\
    2006%Z = year_of_token ascii_db tok.
Proof.
  apply (@extract_year_returns_a_written_year ascii_db episode_text 2006).
  vm_compute. reflexivity.
Defined.

Lemma extract_year_range_witness : (1900 <= 2006 <= 2099)%Z.
Proof.
  apply (@extract_year_range ascii_db episode_text 2006).
  - intros c v H. discriminate.
  - vm_compute. reflexivity.
Defined.

Lemma extract_year_unclosed_parenthesis_witness :
  extract_year ascii_db (lit "Pilot (December 17, 2006, rerun 2010")
  = Ok (Some 2006%Z).
Proof.
  refine (@extract_year_unclosed_parenthesis ascii_db
            (lit "Pilot (December 17, 2006, rerun 2010")
            (lit "Pilot (December 17, ") (lit "2006") (lit ", rerun 2010")
            _ _ _).
  - vm_compute. intuition discriminate.
  - reflexivity.
  - assert (first_token ascii_db (lit "Pilot (December 17, 2006, rerun 2010")
            = Some (lit "Pilot (December 17, ", lit "2006",
                    lit ", rerun 2010")) as H
        by (vm_compute; reflexivity).
    apply first_token_some in H. apply H.
Defined.

Lemma no_animation_heading_no_flagged_row_witness :
  exists st,
    scan ascii_db scan_init live_page = Ok st /\
    Forall (fun r => in_animation_section r = false) (rows st) /\
    drop_animation (rows st) = rows st.
Proof.
  apply (@no_animation_heading_no_flagged_row ascii_db live_page).
  intros nd Hin Hh. simpl in Hin.
  destruct Hin as [<-|[<-|[<-|[<-|[]]]]];
    first [vm_compute; reflexivity | vm_compute in Hh; discriminate Hh].
Defined.

Lemma groupby_size_ignores_row_order_witness :
  groupby_size sample_rows = groupby_size (rev sample_rows).
Proof.
  apply (@groupby_size_ignores_row_order sample_rows (rev sample_rows)).
  apply Permutation_rev.
Defined.

Lemma chart_bars_ignore_tie_order_witness :
  sort_index (year_counts sort_desc_reversing sample_rows)
  = groupby_size sample_rows.
Proof.
  exact (@chart_bars_ignore_tie_order sort_desc_reversing
           sort_desc_reversing_perm sample_rows).
Defined.

Lemma top_year_has_the_largest_count_witness :
  2 = count_year 2006 sample_rows /\ 0 < 2 /\
  forall y', count_year y' sample_rows <= 2.
Proof.
  apply (@top_year_has_the_largest_count sort_desc_stable
           sort_desc_stable_perm sort_desc_stable_sorted
           sample_rows 2006%Z 2 [(1999%Z, 1)]).
  reflexivity.
Defined.

Lemma year_counts_empty_iff_no_rows_witness :
  year_counts sort_desc_stable (@nil row) = [] <-> @nil row = [].
Proof.
  exact (@year_counts_empty_iff_no_rows sort_desc_stable
           sort_desc_stable_perm []).
Defined.

Lemma transport_failure_aborts_witness :
  main ascii_db sort_desc_stable offline_env
  = (startup offline_env ++ [HttpGet URL user_agent 30],
     Raise ConnectionError).
Proof.
  apply (@transport_failure_aborts ascii_db sort_desc_stable offline_env).
  reflexivity.
Defined.

Lemma missing_wrapper_raises_witness :
  main ascii_db sort_desc_stable not_modified_env
  = (startup not_modified_env
       ++ [HttpGet URL user_agent 30; Print (OkDownloaded 0)],
     Raise RuntimeError).
Proof.
  apply (@missing_wrapper_raises ascii_db sort_desc_stable not_modified_env
           {| status_code := 304; text := [] |}); reflexivity.
Defined.

Lemma other_status_is_not_rejected_witness :
  In (Print (OkDownloaded 0))
     (fst (main ascii_db sort_desc_stable not_modified_env)) /\
  snd (main ascii_db sort_desc_stable not_modified_env) <> Raise HTTPError.
Proof.
  apply (@other_status_is_not_rejected ascii_db sort_desc_stable
           not_modified_env {| status_code := 304; text := [] |}).
  - reflexivity.
  - left. simpl. lia.
Defined.

Lemma surviving_rows_reach_the_tables_witness :
  exists before after,
    fst (main ascii_db sort_desc_stable (sample_env 200 (Some live_page)))
    = before
      ++ [ ToCsv "/repo/data/wiki_christmas_entries_all.csv"
                 (Entries
                    [{| year := 2005; in_animation_section := false;
                        entry := lit "Some show, episode (2005)" |};
                     {| year := 1999; in_animation_section := false;
                        entry := lit "Other show (December 1, 1999)" |}]);
           ToCsv "/repo/data/wiki_christmas_entries_filtered.csv"
                 (Entries
                    [{| year := 2005; in_animation_section := false;
                        entry := lit "Some show, episode (2005)" |};
                     {| year := 1999; in_animation_section := false;
                        entry := lit "Other show (December 1, 1999)" |}]);
           ToCsv "/repo/data/wiki_christmas_counts_by_year.csv"
                 (Counts [(1999%Z, 1); (2005%Z, 1)]) ]
      ++ after /\
    files_written before = ["/repo/outputs/it_ran.txt"%string].
Proof.
  apply (@surviving_rows_reach_the_tables ascii_db sort_desc_stable
           sort_desc_stable_perm
           (sample_env 200 (Some live_page))
           {| status_code := 200; text := lit "<html></html>" |}
           live_page
           {| rows :=
                [{| year := 2005; in_animation_section := false;
                    entry := lit "Some show, episode (2005)" |};
                 {| year := 1999; in_animation_section := false;
                    entry := lit "Other show (December 1, 1999)" |}];
              in_animation := false;
              total_li := 3; li_with_year := 2 |});
    try (vm_compute; reflexivity).
  vm_compute. discriminate.
Defined.

Lemma diagnostic_counts_agree_witness : 2 = 2.
Proof.
  apply (@diagnostic_counts_agree ascii_db sort_desc_stable
           (sample_env 200 (Some live_page)) 2 2);
    vm_compute; repeat (first [left; reflexivity | right]).
Defined.
